(** * LQK site updater: a shallow embedding of [run.py] and its properties

    The script reads a salvage-yard report ([LQK.txt]) and tabular files,
    removes duplicate vehicles, sorts by date and writes two JSON listings.

    Conventions of the embedding:
    - a Python [str] is a [string]; a character is a code point below 256
      (Rocq's [ascii]), so the character classes below are the Latin-1
      fragments of Python's Unicode classes;
    - an exception is a value of [exn]; code that can raise returns a
      [result]; code that also prints returns an [io];
    - a vehicle dict with its five fixed keys is the record [Car.t];
    - an insertion-ordered [dict] is an association list. *)

From Stdlib Require Import ZArith NArith Ascii String List Lia Permutation.
From stdpp Require Import base tactics option list strings gmap pretty sorting.

Local Open Scope Z_scope.
Local Open Scope nat_scope.

(** ** Exceptions, results and printing *)

Inductive exn : Type :=
  | ValueError       (* int() on a malformed literal *)
  | AttributeError   (* None.strip() *)
  | IndexError       (* list index out of range *)
  | CsvError         (* raised by the csv reader or by the file object *)
  | NameError        (* start_server uses Path, which is never imported *)
  | EOFError         (* input() at end of input *)
  | OSError          (* open() or a write that fails *)
  | UnicodeDecodeError.  (* a file that is not UTF-8 *)

Inductive result (A : Type) : Type :=
  | Ok (a : A)
  | Raise (e : exn).
Arguments Ok {A} a.
Arguments Raise {A} e.

Global Instance result_ret : MRet result := λ A a, Ok a.
Global Instance result_bind : MBind result := λ A B f m,
  match m with
  | Ok a => f a
  | Raise e => Raise e
  end.

Global Instance exn_eq_dec : EqDecision exn.
Proof. solve_decision. Defined.
Global Instance result_eq_dec {A} `{EqDecision A} : EqDecision (result A).
Proof. solve_decision. Defined.

Definition is_Ok {A} (r : result A) : Prop := ∃ a, r = Ok a.

Global Instance is_Ok_dec {A} (r : result A) : Decision (is_Ok r).
Proof.
  destruct r as [a|e]; [left; by exists a | right; intros [a Ha]; discriminate].
Defined.

(** ** Characters and the string methods the script calls *)

Definition code (c : ascii) : N := N_of_ascii c.

(** [str.isdecimal] on one character, which is also the regex class [\d]. *)
Definition isdecimal (c : ascii) : bool :=
  ((48 <=? code c) && (code c <=? 57))%N.

(** [str.isspace] on one character: the characters [str.strip()] removes
    and the regex class [\s] matches. *)
Definition isspace (c : ascii) : bool :=
  let n := code c in
  ((9 <=? n) && (n <=? 13) || (28 <=? n) && (n <=? 32)
   || (n =? 133) || (n =? 160))%N.

Fixpoint lstrip (s : string) : string :=
  match s with
  | String c s' => if isspace c then lstrip s' else s
  | EmptyString => EmptyString
  end.

Fixpoint rstrip (s : string) : string :=
  match s with
  | EmptyString => EmptyString
  | String c s' =>
      match rstrip s' with
      | EmptyString => if isspace c then EmptyString else String c EmptyString
      | r => String c r
      end
  end.

(** [s.strip()] *)
Definition strip (s : string) : string := rstrip (lstrip s).

(** [s.split(sep)] for a one-character separator: never the empty list. *)
Fixpoint split (sep : ascii) (s : string) : list string :=
  match s with
  | EmptyString => [EmptyString]
  | String c s' =>
      if decide (c = sep) then EmptyString :: split sep s'
      else match split sep s' with
           | p :: ps => String c p :: ps
           | [] => [String c EmptyString]
           end
  end.

(** [s.split(sep, 1)]: at most one cut, at the first separator. *)
Fixpoint split1 (sep : ascii) (s : string) : list string :=
  match s with
  | EmptyString => [EmptyString]
  | String c s' =>
      if decide (c = sep) then [EmptyString; s']
      else match split1 sep s' with
           | p :: ps => String c p :: ps
           | [] => [String c EmptyString]
           end
  end.

(** ** [int(s)]

    The builtin skips white space, reads an optional sign, then decimal
    digits in which single underscores may separate digits, then white
    space up to the end.  The white space it skips is C's ([\t\n\v\f\r] and
    the space) plus the non-ASCII Unicode spaces (here 133 and 160); the
    separators 28..31, which [strip] removes, are not skipped.  More than
    4300 digits are refused (CPython's default limit). *)

Definition int_space (c : ascii) : bool :=
  let n := code c in
  ((9 <=? n) && (n <=? 13) || (n =? 32) || (n =? 133) || (n =? 160))%N.

Fixpoint skip_space (s : string) : string :=
  match s with
  | String c s' => if int_space c then skip_space s' else s
  | EmptyString => EmptyString
  end.

Definition digit_value (c : ascii) : Z := Z.of_N (code c) - 48.

(** The digit scan: [prev_us] tells that the previous character was an
    underscore, [acc] is the value read so far and [n] the digit count.
    [None] is a misplaced underscore. *)
Fixpoint scan_digits (prev_us : bool) (acc : Z) (n : nat) (s : string)
  : option (Z * nat * string) :=
  match s with
  | String c s' =>
      if isdecimal c then scan_digits false (10 * acc + digit_value c)%Z (S n) s'
      else if decide (c = "_"%char) then
        if prev_us then None else scan_digits true acc n s'
      else if prev_us then None else Some (acc, n, s)
  | EmptyString => if prev_us then None else Some (acc, n, EmptyString)
  end.

Definition max_str_digits : nat := 4300.

Definition int (s : string) : result Z :=
  let s1 := skip_space s in
  let '(negative, s2) :=
    match s1 with
    | String "+"%char r => (false, r)
    | String "-"%char r => (true, r)
    | _ => (false, s1)
    end in
  match s2 with
  | String "_"%char _ => Raise ValueError
  | _ =>
      match scan_digits false 0%Z 0 s2 with
      | None => Raise ValueError
      | Some (v, n, rest) =>
          if decide (n = 0) then Raise ValueError
          else if decide (max_str_digits < n) then Raise ValueError
          else match skip_space rest with
               | EmptyString => Ok (if negative : bool then (- v)%Z else v)
               | String _ _ => Raise ValueError
               end
      end
  end.

(** ** The date ranking function *)

Definition rank : Type := Z * Z * Z.

(** [parse_date], lines 151-157.  [map(int, parts)] is unpacked left to
    right, so the first part that is not an integer literal raises. *)
Definition parse_date (date_str : string) : result rank :=
  let parts := split "/" date_str in
  if decide (length parts = 3) then
    match parts with
    | [p1; p2; p3] =>
        month ← int p1;
        day ← int p2;
        year ← int p3;
        mret (year, month, day)
    | _ => Ok (0, 0, 0)%Z
    end
  else Ok (0, 0, 0)%Z.

(** Tuples of integers compare lexicographically; [list.sort] only ever
    asks for [<]. *)
Definition rank_ltb (a b : rank) : bool :=
  let '(y1, m1, d1) := a in
  let '(y2, m2, d2) := b in
  ((y1 <? y2) || (y1 =? y2) && ((m1 <? m2) || (m1 =? m2) && (d1 <? d2)))%Z.

Definition rank_lt (a b : rank) : Prop := rank_ltb a b = true.
Definition rank_le (a b : rank) : Prop := rank_ltb b a = false.

(** ** [sorted(l, key=..., reverse=...)]

    The builtin computes every key first, in list order, and then sorts
    stably: elements with equal keys keep their input order, also with
    [reverse=True].  A stable sort has one possible result, which the
    insertion sort below computes. *)
Section py_sorted.
Context {K A : Type} (lt : K → K → bool).

(** [y], met later in the input than [x], still has to come out first. *)
Definition goes_first (reverse : bool) (y x : K * A) : bool :=
  if reverse then lt x.1 y.1 else lt y.1 x.1.

Fixpoint insert_stable (reverse : bool) (x : K * A) (l : list (K * A))
  : list (K * A) :=
  match l with
  | [] => [x]
  | y :: l' =>
      if goes_first reverse y x then y :: insert_stable reverse x l'
      else x :: l
  end.

Definition sort_stable (reverse : bool) (l : list (K * A)) : list (K * A) :=
  foldr (insert_stable reverse) [] l.

Definition sorted (l : list A) (key : A → result K) (reverse : bool)
  : result (list A) :=
  keyed ← mapM (λ x, k ← key x; mret (k, x)) l;
  mret (sort_stable reverse keyed).*2.
End py_sorted.

(** ** Insertion-ordered dictionaries *)
Section dict.
Context {K V : Type} `{EqDecision K}.

(** [k in d] *)
Definition dict_has (k : K) (d : list (K * V)) : bool :=
  bool_decide (k ∈ d.*1).

(** [d[k] = f(d[k])] for a key that is present *)
Fixpoint dict_update (k : K) (f : V → V) (d : list (K * V)) : list (K * V) :=
  match d with
  | [] => []
  | (k', v) :: d' =>
      if decide (k' = k) then (k', f v) :: d'
      else (k', v) :: dict_update k f d'
  end.

(** [if k not in d: d[k] = v] *)
Definition dict_setdefault (k : K) (v : V) (d : list (K * V)) : list (K * V) :=
  if dict_has k d then d else d ++ [(k, v)].
End dict.

(** ** Records, printed messages and effects *)

Module Car.
Record t : Type := mk {
  year : string;
  make : string;
  model : string;
  location : string;
  available : string
}.
End Car.
Abbreviation car := Car.t.

Global Instance car_eq_dec : EqDecision car.
Proof. solve_decision. Defined.

(** One object of the consolidated listing. *)
Module Entry.
Record t : Type := mk {
  car : string;
  year : string;
  count : string;
  dates : string;
  locations : string
}.
End Entry.

Inductive message : Type :=
  | MWarnNotFound (file : string)             (* "Warning: ... not found" *)
  | MErrorParsing (file : string) (e : exn)   (* "Error parsing ...: ..." *)
  | MRemoved (duplicates_removed : nat)       (* "Removed n duplicate entries" *)
  | MBanner
  | MStep (i : nat) (what : string)
  | MFound (n : nat) (source : string)
  | MNoData                                   (* "No data found! ..." *)
  | MTotal (n : nat)
  | MFinal (n : nat)
  | MDateRange (oldest newest : string)
  | MNewestHeader
  | MNewest (i : nat) (c : car) (loc : string)
  | MSaved (n : nat) (file : string)
  | MSuccess
  | MPrompt
  | MServerHelp
  | MExiting.

(** What a run does to the outside: it prints and it writes the two
    listings ([json.dump] of the given data to the given path). *)
Inductive event : Type :=
  | Print (m : message)
  | WriteCars (file : string) (data : list car)
  | WriteConsolidated (file : string) (data : list Entry.t).

(** A computation that has effects and then returns or raises. *)
Record io (A : Type) : Type := IO { out : list event; res : result A }.
Arguments IO {A} out res.
Arguments out {A} _.
Arguments res {A} _.

Global Instance io_ret : MRet io := λ A a, IO [] (Ok a).
Global Instance io_bind : MBind io := λ A B f m,
  match res m with
  | Ok a => IO (out m ++ out (f a)) (res (f a))
  | Raise e => IO (out m) (Raise e)
  end.

Definition print (m : message) : io () := IO [Print m] (Ok ()).
Definition print_all (ms : list message) : io () := IO (Print <$> ms) (Ok ()).
Definition lift {A} (r : result A) : io A := IO [] r.

(** ** The three regular expressions

    All three patterns are sequences of literals and of repetitions of one
    character class, so a backtracking matcher over such sequences gives
    what [re] gives: each repetition tries its counts in priority order
    (most first when greedy, fewest first when lazy) and the first count
    with which the rest of the pattern matches wins. *)

Inductive item : Type :=
  | Lit (s : string)
  | Rep (cls : ascii → bool) (lo : nat) (hi : option nat)
        (greedy : bool) (capture : bool).

Fixpoint strip_prefix (p s : string) : option string :=
  match p, s with
  | EmptyString, _ => Some s
  | String a p', String b s' => if decide (a = b) then strip_prefix p' s' else None
  | String _ _, EmptyString => None
  end.

Fixpoint run_length (cls : ascii → bool) (s : string) : nat :=
  match s with
  | String c s' => if cls c then S (run_length cls s') else 0
  | EmptyString => 0
  end.

Fixpoint str_take (n : nat) (s : string) : string :=
  match n, s with
  | S n', String c s' => String c (str_take n' s')
  | _, _ => EmptyString
  end.

Fixpoint str_drop (n : nat) (s : string) : string :=
  match n, s with
  | S n', String _ s' => str_drop n' s'
  | _, _ => s
  end.

(** The counts a repetition may take when [avail] characters of its class
    lie ahead, in the order they are tried. *)
Definition counts (lo : nat) (hi : option nat) (greedy : bool) (avail : nat)
  : list nat :=
  let top := match hi with Some h => h `min` avail | None => avail end in
  let ascending := seq lo (S top - lo) in
  if greedy then reverse ascending else ascending.

Fixpoint first_some {A B} (f : A → option B) (l : list A) : option B :=
  match l with
  | [] => None
  | x :: l' => match f x with Some y => Some y | None => first_some f l' end
  end.

(** Match at the start of [s]; the result lists the captured groups. *)
Fixpoint match_here (items : list item) (s : string) : option (list string) :=
  match items with
  | [] => Some []
  | Lit l :: rest =>
      match strip_prefix l s with
      | Some s' => match_here rest s'
      | None => None
      end
  | Rep cls lo hi greedy capture :: rest =>
      first_some
        (λ n, groups ← match_here rest (str_drop n s);
              Some (if capture then str_take n s :: groups else groups))
        (counts lo hi greedy (run_length cls s))
  end.

(** [re.match] *)
Definition re_match (pattern : list item) (s : string) : option (list string) :=
  match_here pattern s.

(** [re.search]: the leftmost position at which the pattern matches. *)
Fixpoint re_search (pattern : list item) (s : string) : option (list string) :=
  match match_here pattern s with
  | Some groups => Some groups
  | None =>
      match s with
      | String _ s' => re_search pattern s'
      | EmptyString => None
      end
  end.

Definition dot (c : ascii) : bool := negb (code c =? 10)%N.
Definition not_blank (c : ascii) : bool := negb (code c =? 32)%N.

Definition plus (cls : ascii → bool) : item := Rep cls 1 None true false.
Definition star (cls : ascii → bool) : item := Rep cls 0 None true false.
Definition group_plus (cls : ascii → bool) : item := Rep cls 1 None true true.
Definition group_lazy (cls : ascii → bool) : item := Rep cls 1 None false true.

(** [^(\d{4})\s+([^ ]+)\s+(.+?)\s+available for parts] *)
Definition car_pattern : list item :=
  [Rep isdecimal 4 (Some 4) true true; plus isspace; group_plus not_blank;
   plus isspace; group_lazy dot; plus isspace; Lit "available for parts"].

(** [Section:\s*(.+?)\s+Row:\s*(.+?)\s+Space:\s*(.+)] *)
Definition section_pattern : list item :=
  [Lit "Section:"; star isspace; group_lazy dot; plus isspace;
   Lit "Row:"; star isspace; group_lazy dot; plus isspace;
   Lit "Space:"; star isspace; group_plus dot].

(** [Available:\s+(.+)] *)
Definition date_pattern : list item :=
  [Lit "Available:"; plus isspace; group_plus dot].

Definition car_match (line : string) : option (string * string * string) :=
  match re_match car_pattern line with
  | Some [g1; g2; g3] => Some (g1, g2, g3)
  | _ => None
  end.

Definition section_match (line : string) : option (string * string * string) :=
  match re_search section_pattern line with
  | Some [g1; g2; g3] => Some (g1, g2, g3)
  | _ => None
  end.

Definition date_match (line : string) : option string :=
  match re_search date_pattern line with
  | Some [g1] => Some g1
  | _ => None
  end.

(** ** The report-format extractor *)

Definition set_location (c : car) (v : string) : car :=
  Car.mk (Car.year c) (Car.make c) (Car.model c) v (Car.available c).
Definition set_available (c : car) (v : string) : car :=
  Car.mk (Car.year c) (Car.make c) (Car.model c) (Car.location c) v.

(** The loop body, lines 36-68.  The state is [cars] and [current_car];
    [None] is the empty dict [{}] the loop starts with.  A dict made at
    line 49 always has the key ['year'], so the test of lines 42 and 71 is
    [current_car] being such a dict.  The three tests are independent
    [if]s: a start line is also searched for a section and a date. *)
Definition lqk_line (st : list car * option car) (raw : string)
  : list car * option car :=
  let line := strip raw in
  let '(cars, current_car) := st in
  let '(cars, current_car) :=
    match car_match line with
    | Some (year, make, model) =>
        (match current_car with Some c => cars ++ [c] | None => cars end,
         Some (Car.mk year make (strip model) EmptyString EmptyString))
    | None => (cars, current_car)
    end in
  let current_car :=
    match section_match line, current_car with
    | Some (section, row, space), Some c =>
        Some (set_location c
                (strip (strip section +:+ " " +:+ strip row +:+ " " +:+ strip space)))
    | _, _ => current_car
    end in
  let current_car :=
    match date_match line, current_car with
    | Some d, Some c => Some (set_available c (strip d))
    | _, _ => current_car
    end in
  (cars, current_car).

(** Lines 70-72: the last car. *)
Definition lqk_flush (st : list car * option car) : list car :=
  match st.2 with
  | Some c => st.1 ++ [c]
  | None => st.1
  end.

(** [parse_lqk_file]; the file is [None] when the path does not exist.
    Otherwise it is what [open] and the iteration over the file give: the
    decoded lines, or the exception they raise.  [open] and the loop are in
    no [try], and the loop prints nothing, so a failure in the middle of
    the file shows as the exception alone. *)
Definition parse_lqk_file (input_file : string)
    (file : option (result (list string))) : io (list car) :=
  match file with
  | None => print (MWarnNotFound input_file);; mret []
  | Some opened =>
      lines ← lift opened;
      mret (lqk_flush (foldl lqk_line ([], None) lines))
  end.

(** ** The tabular extractor

    [csv.DictReader] is library code: the extractor is modelled on what
    the reader hands over.  A row is a dict from column names to cells; the
    cell of a column that a short line does not reach is [None].  Iterating
    the reader yields rows until it is exhausted or raises ([open] failing
    on an existing path is a reader that raises at once). *)

Definition cell : Type := option string.

Inductive reader_event : Type :=
  | Yield (row : gmap string cell)
  | ReaderRaises (e : exn).

(** [row.get(column, '').strip()] *)
Definition get_strip (row : gmap string cell) (column : string) : result string :=
  match default (Some EmptyString) (row !! column) with
  | Some s => Ok (strip s)
  | None => Raise AttributeError
  end.

(** The loop body, lines 90-103, up to the [append]. *)
Definition row_to_car (row : gmap string cell) : result car :=
  car_name ← get_strip row "car";
  let parts := split1 " " car_name in
  let make := match parts with p :: _ => p | [] => EmptyString end in
  let model := match parts with _ :: p :: _ => p | _ => EmptyString end in
  year ← get_strip row "year";
  location ← get_strip row "location";
  available ← get_strip row "date";
  mret (Car.mk year make model location available).

(** The [for] loop inside the [try]: the records appended so far and the
    exception that ended the loop, if any. *)
Fixpoint read_rows (reader : list reader_event) (cars : list car)
  : list car * option exn :=
  match reader with
  | [] => (cars, None)
  | ReaderRaises e :: _ => (cars, Some e)
  | Yield row :: reader' =>
      match row_to_car row with
      | Ok c => read_rows reader' (cars ++ [c])
      | Raise e => (cars, Some e)
      end
  end.

(** [parse_csv_file]; the file is [None] when the path does not exist. *)
Definition parse_csv_file (csv_file : string)
    (file : option (list reader_event)) : io (list car) :=
  match file with
  | None => print (MWarnNotFound csv_file);; mret []
  | Some reader =>
      let '(cars, raised) := read_rows reader [] in
      match raised with
      | Some e => print (MErrorParsing csv_file e);; mret cars
      | None => mret cars
      end
  end.

(** ** Duplicate removal *)

Definition car_key (c : car) : string * string * string :=
  (Car.year c, Car.make c, Car.model c).

(** One turn of the grouping loop, lines 119-126. *)
Definition add_car (car_groups : list (string * string * string * list car))
    (c : car) : list (string * string * string * list car) :=
  let key := car_key c in
  dict_update key (λ group, group ++ [c]) (dict_setdefault key [] car_groups).

Definition group_cars (cars : list car)
  : list (string * string * string * list car) :=
  foldl add_car [] cars.

(** [parse_date(x['available'])], the sort key of lines 140 and 166. *)
Definition date_key (x : car) : result rank := parse_date (Car.available x).

(** Lines 140-141: sort the group newest first and take [group_sorted[0]]. *)
Definition newest (group : list car) : result car :=
  group_sorted ← sorted rank_ltb group date_key true;
  match group_sorted with
  | c :: _ => Ok c
  | [] => Raise IndexError
  end.

(** The loop of lines 132-141 over [car_groups.items()]. *)
Fixpoint keep_newest (items : list (string * string * string * list car))
    (unique_cars : list car) (duplicates_removed : nat)
  : result (list car * nat) :=
  match items with
  | [] => Ok (unique_cars, duplicates_removed)
  | (_, group) :: items' =>
      if decide (length group = 1) then
        match group with
        | c :: _ => keep_newest items' (unique_cars ++ [c]) duplicates_removed
        | [] => Raise IndexError
        end
      else
        c ← newest group;
        keep_newest items' (unique_cars ++ [c])
          (duplicates_removed + (length group - 1))
  end.

Definition remove_duplicates (cars : list car) : io (list car) :=
  '(unique_cars, duplicates_removed) ← lift (keep_newest (group_cars cars) [] 0);
  print (MRemoved duplicates_removed);;
  mret unique_cars.

(** ** Conversion to the site format *)

Definition convert_to_site_format (cars : list car) : io (list car) :=
  cars ← remove_duplicates cars;
  lift (sorted rank_ltb cars date_key true).

(** ** The consolidated listing *)

(** [sorted] and [list.sort] with a key that cannot raise. *)
Definition sorted_by {K A} (lt : K → K → bool) (l : list A) (key : A → K)
    (reverse : bool) : list A :=
  (sort_stable lt reverse ((λ a : A, (key a, a)) <$> l)).*2.

(** Strings compare by code point, pairs lexicographically. *)
Definition pair_ltb (a b : string * string) : bool :=
  String.ltb a.1 b.1 || String.eqb a.1 b.1 && String.ltb a.2 b.2.

(** A group is the dict [{'dates': [...], 'locations': [...]}], here the
    pair of the two lists.  One turn of the loop of lines 182-191. *)
Definition add_sighting
    (car_groups : list (string * string * (list string * list string)))
    (c : car) : list (string * string * (list string * list string)) :=
  let car_name := Car.make c +:+ " " +:+ Car.model c in
  let key := (car_name, Car.year c) in
  let car_groups := dict_setdefault key ([], []) car_groups in
  let car_groups :=
    dict_update key (λ d, (d.1 ++ [Car.available c], d.2)) car_groups in
  dict_update key (λ d, (d.1, d.2 ++ [Car.location c])) car_groups.

(** Lines 197-202 and 204-209: keep the first occurrence of each value. *)
Fixpoint unique_loop (values unique : list string) (seen : gset string)
  : list string :=
  match values with
  | [] => unique
  | v :: values' =>
      if decide (v ∈ seen) then unique_loop values' unique seen
      else unique_loop values' (unique ++ [v]) (seen ∪ {[v]})
  end.

Definition unique_values (values : list string) : list string :=
  unique_loop values [] ∅.

(** [f"({i+1}) {v}"] *)
Definition numbered (i : nat) (v : string) : string :=
  "(" +:+ pretty (i + 1) +:+ ") " +:+ v.

(** [sep.join(l)] *)
Fixpoint join (sep : string) (l : list string) : string :=
  match l with
  | [] => EmptyString
  | [x] => x
  | x :: l' => x +:+ sep +:+ join sep l'
  end.

(** Lines 212-216 and 219-223. *)
Definition enumerate_values (unique : list string) : string :=
  match unique with
  | [v] => "(1) " +:+ v
  | _ => join ", " (imap numbered unique)
  end.

(** The body of the loop of lines 195-231. *)
Definition consolidate_group
    (it : string * string * (list string * list string)) : Entry.t :=
  let '(car_name, year, data) := it in
  let unique_dates := unique_values data.1 in
  let unique_locations := unique_values data.2 in
  let date_count := length unique_dates in
  Entry.mk car_name year (pretty date_count)
    (enumerate_values unique_dates) (enumerate_values unique_locations).

(** The list [consolidated] as it is handed to [json.dump].  The keys of a
    dict are distinct, so sorting its items never compares two groups. *)
Definition consolidate (data : list car) : list Entry.t :=
  let car_groups := foldl add_sighting [] data in
  let consolidated :=
    consolidate_group <$> sorted_by pair_ltb car_groups fst false in
  sorted_by pair_ltb consolidated (λ x, (Entry.car x, Entry.year x)) false.

(** Both writers open the path for writing and dump into it, in no [try].
    [failure] is what [open] or [json.dump] raises, if anything; the event
    of a listing stands for a dump that was completed, so a writer that
    fails has none (it may leave the path empty or partly written). *)
Definition save_to_lqk_consolidated (data : list car) (output_file : string)
    (failure : option exn) : io () :=
  let consolidated := consolidate data in
  match failure with
  | Some e => lift (Raise e)
  | None => IO [WriteConsolidated output_file consolidated] (Ok ())
  end.

Definition save_to_json (data : list car) (output_file : string)
    (failure : option exn) : io () :=
  match failure with
  | Some e => lift (Raise e)
  | None => IO [WriteCars output_file data] (Ok ())
  end.

(** ** The entry point *)

(** What [input()] does: a line is typed, or the user interrupts, or the
    input is at its end. *)
Inductive answer : Type :=
  | Typed (s : string)
  | Interrupt
  | EndOfInput.

(** The files and the terminal a run finds: the report, the tabular files,
    what is answered to the prompt, and for each path what writing a
    listing to it raises, if anything. *)
Record world : Type := World {
  lqk_txt : option (result (list string));
  csv : string → option (list reader_event);
  stdin : answer;
  write_error : string → option exn
}.

Definition lower_char (c : ascii) : ascii :=
  let n := code c in
  if ((65 <=? n) && (n <=? 90) || (192 <=? n) && (n <=? 222) && negb (n =? 215))%N
  then ascii_of_N (n + 32) else c.

(** [s.lower()] *)
Fixpoint lower (s : string) : string :=
  match s with
  | EmptyString => EmptyString
  | String c s' => String (lower_char c) (lower s')
  end.

(** [start_server]: its first statement names [Path], which the script
    never imports. *)
Definition start_server (port : N) : io bool := lift (Raise NameError).

Definition lqk_file : string := "LQK.txt".
Definition csv_files : list string := ["LQK.csv"; "LQK_consolidated.csv"].
Definition site_json : string := "../site/cars.json".
Definition lqk_json : string := "LQK.json".
Definition port : N := 8001%N.

(** The body of the loop of lines 297-303. *)
Definition read_csv (w : world) (all_cars : list car) (csv_file : string)
  : io (list car) :=
  match csv w csv_file with
  | Some _ =>
      cars_from_csv ← parse_csv_file csv_file (csv w csv_file);
      match cars_from_csv with
      | [] => mret all_cars
      | _ => print (MFound (length cars_from_csv) csv_file);;
             mret (all_cars ++ cars_from_csv)
      end
  | None => mret all_cars
  end.

Fixpoint for_each {A B} (f : B → A → io B) (l : list A) (b : B) : io B :=
  match l with
  | [] => mret b
  | x :: l' => b' ← f b x; for_each f l' b'
  end.

(** Lines 317-327. *)
Definition show_summary (cars_final : list car) : io () :=
  match cars_final with
  | [] => mret ()
  | _ =>
      let dates :=
        filter (λ d, d ≠ EmptyString) (Car.available <$> cars_final) in
      match dates with
      | [] => mret ()
      | _ =>
          dates_sorted ← lift (sorted rank_ltb dates parse_date true);
          print (MDateRange (default EmptyString (last dates_sorted))
                            (default EmptyString (head dates_sorted)))
      end;;
      print MNewestHeader;;
      print_all (imap (λ i c, MNewest (S i) c (str_take 35 (Car.location c)))
                   (take 5 cars_final))
  end.

(** Lines 342-351. *)
Definition ask_server (typed : answer) : io () :=
  print MPrompt;;
  match typed with
  | Typed s =>
      let response := lower (strip s) in
      if decide (response = "y" ∨ response = "yes")
      then start_server port;; mret ()
      else print MServerHelp
  | Interrupt => print MExiting
  | EndOfInput => lift (Raise EOFError)
  end.

(** [main], lines 273-353. *)
Definition main (w : world) : io Z :=
  print MBanner;;
  let all_cars := [] in
  print (MStep 1 lqk_file);;
  cars_from_txt ← parse_lqk_file lqk_file (lqk_txt w);
  all_cars ←
    match cars_from_txt with
    | [] => mret all_cars
    | _ => print (MFound (length cars_from_txt) lqk_file);;
           mret (all_cars ++ cars_from_txt)
    end;
  print (MStep 2 "CSV");;
  all_cars ← for_each (read_csv w) csv_files all_cars;
  match all_cars with
  | [] => print MNoData;; mret 1%Z
  | _ =>
      print (MTotal (length all_cars));;
      print (MStep 3 "Processing");;
      cars_final ← convert_to_site_format all_cars;
      print (MFinal (length cars_final));;
      show_summary cars_final;;
      print (MStep 4 "Saving");;
      save_to_json cars_final site_json (write_error w site_json);;
      print (MSaved (length cars_final) site_json);;
      save_to_lqk_consolidated cars_final lqk_json (write_error w lqk_json);;
      print (MSaved (length cars_final) lqk_json);;
      print MSuccess;;
      ask_server (stdin w);;
      mret 0%Z
  end.

(** [sys.exit(main())]: the status is the value returned, and 1 when an
    exception escapes. *)
Definition exit_status (run : io Z) : Z :=
  match res run with
  | Ok status => status
  | Raise _ => 1%Z
  end.

(** * Vocabulary of the statements *)

(** ** Lists and strings *)

(** The distinct elements of a list in the order of their first
    occurrences. *)
Fixpoint distinct {K} `{EqDecision K} (l : list K) : list K :=
  match l with
  | [] => []
  | x :: l' => x :: filter (λ y, y ≠ x) (distinct l')
  end.

(** A loop that files each element under its key in an insertion-ordered
    dict, creating the entry on first sight ([file_under] is one turn), and
    the entry it should end with for key [k] ([group_of]). *)
Section grouping_vocabulary.
Context {K V A : Type} `{EqDecision K}.
Context (key : A → K) (init : V) (upd : A → V → V).

Definition file_under (d : list (K * V)) (a : A) : list (K * V) :=
  dict_update (key a) (upd a) (dict_setdefault (key a) init d).

Definition group_of (l : list A) (k : K) : K * V :=
  (k, foldl (λ v a, upd a v) init (filter (λ a, key a = k) l)).
End grouping_vocabulary.

(** A string all of whose characters are in a class. *)
Fixpoint all_chars (cls : ascii → bool) (s : string) : bool :=
  match s with
  | EmptyString => true
  | String c s' => cls c && all_chars cls s'
  end.

(** [needle] is a substring of [hay]. *)
Definition occurs_in (needle hay : string) : Prop :=
  ∃ before after, hay = before +:+ needle +:+ after.

(** ** Dates *)

(** The number a string of decimal digits denotes. *)
Fixpoint value_from (acc : Z) (s : string) : Z :=
  match s with
  | EmptyString => acc
  | String c s' => value_from (10 * acc + digit_value c)%Z s'
  end.
Definition decimal_value (s : string) : Z := value_from 0 s.

(** A non-empty string of decimal digits, short enough for [int]. *)
Definition numeral (s : string) : Prop :=
  all_chars isdecimal s = true ∧ 0 < String.length s ≤ max_str_digits.

(** [x] has a rank strictly below, or not above, the rank of [c]. *)
Definition older (x c : car) : Prop :=
  ∃ tx tc, date_key x = Ok tx ∧ date_key c = Ok tc ∧ rank_lt tx tc.
Definition not_newer (x c : car) : Prop :=
  ∃ tx tc, date_key x = Ok tx ∧ date_key c = Ok tc ∧ rank_le tx tc.

(** ** The deduplicator *)

(** The records of one identity key, in input order. *)
Definition same_key (k : string * string * string) (cars : list car) : list car :=
  filter (λ c, car_key c = k) cars.

(** Every record whose identity key occurs more than once has a date that
    [parse_date] ranks.  These are the dates the deduplicator sorts. *)
Definition comparable (cars : list car) : Prop :=
  Forall (λ c, length (same_key (car_key c) cars) ≠ 1 → is_Ok (date_key c)) cars.

(** What the loop of lines 132-141 appends for one group. *)
Definition kept (group : list car) : result car :=
  if decide (length group = 1) then
    match group with
    | c :: _ => Ok c
    | [] => Raise IndexError
    end
  else newest group.

(** ** The extractors *)

(** The reader event [ev] ends the loop of the tabular extractor with
    exception [e]: the reader raises, or the row has a [None] cell. *)
Definition fails (ev : reader_event) (e : exn) : Prop :=
  match ev with
  | ReaderRaises e' => e' = e
  | Yield row => row_to_car row = Raise e
  end.

(** A year as the report pattern captures it. *)
Definition four_digits (s : string) : Prop :=
  String.length s = 4 ∧ all_chars isdecimal s = true.

(** A line of the report that starts a record. *)
Definition starts (raw : string) : Prop := is_Some (car_match (strip raw)).

Global Instance starts_dec raw : Decision (starts raw).
Proof. unfold starts. apply _. Defined.

(** What lines 57-68 do to the open record. *)
Definition update_car (c : car) (line : string) : car :=
  let c :=
    match section_match line with
    | Some (section, row, space) =>
        set_location c
          (strip (strip section +:+ " " +:+ strip row +:+ " " +:+ strip space))
    | None => c
    end in
  match date_match line with
  | Some d => set_available c (strip d)
  | None => c
  end.

(** The report as the specification reads it: a block is a start line
    followed by lines that start nothing; its record takes year, make and
    model from the start line, its location from the last line of the
    block with a section, its date from the last line of the block with a
    date, and the empty string where the block has no such line. *)
Definition is_block (block : list string) : Prop :=
  match block with
  | start :: body => starts start ∧ Forall (λ raw, ¬ starts raw) body
  | [] => False
  end.

Definition last_match {X} (f : string → option X) (lines : list string)
  : option X :=
  last (omap (λ raw, f (strip raw)) lines).

Definition location_of (block : list string) : string :=
  match last_match section_match block with
  | Some (section, row, space) =>
      strip (strip section +:+ " " +:+ strip row +:+ " " +:+ strip space)
  | None => EmptyString
  end.

Definition available_of (block : list string) : string :=
  match last_match date_match block with
  | Some d => strip d
  | None => EmptyString
  end.

Definition block_record (block : list string) : option car :=
  match block with
  | start :: _ =>
      match car_match (strip start) with
      | Some (year, make, model) =>
          Some (Car.mk year make (strip model)
                  (location_of block) (available_of block))
      | None => None
      end
  | [] => None
  end.

(** ** The consolidated listing *)

(** The key of the consolidated listing and the records of one key. *)
Definition sighting_key (c : car) : string * string :=
  (Car.make c +:+ " " +:+ Car.model c, Car.year c).
Definition sightings (k : string * string) (data : list car) : list car :=
  filter (λ c, sighting_key c = k) data.
Definition entry_key (e : Entry.t) : string * string :=
  (Entry.car e, Entry.year e).

(** ** A run *)

(** Effects that are prints: the run wrote no file. *)
Definition prints_only (events : list event) : Prop :=
  Forall (λ ev, ∃ m, ev = Print m) events.

(** The records an extractor returned, and the records a run gathers from
    the report and the tabular files, in that order; a run that reading
    the report ends with an exception gathers nothing. *)
Definition returned (m : io (list car)) : list car :=
  match res m with
  | Ok cars => cars
  | Raise _ => []
  end.

Definition gathered (w : world) : list car :=
  match res (parse_lqk_file lqk_file (lqk_txt w)) with
  | Ok cars_from_txt =>
      cars_from_txt
      ++ mjoin ((λ f, returned (parse_csv_file f (csv w f))) <$> csv_files)
  | Raise _ => []
  end.

(** ** Sample inputs *)

(** A small lot: two sightings of one Camry, two same-day sightings of one
    Civic, and a truck with no date. *)
Definition camry_old : car := Car.mk "2015" "TOYOTA" "CAMRY" "A 5 3" "01/10/2024".
Definition camry_new : car := Car.mk "2015" "TOYOTA" "CAMRY" "B 2 7" "03/15/2024".
Definition civic_l1 : car := Car.mk "2020" "Honda" "Civic" "L1" "01/01/2020".
Definition civic_l2 : car := Car.mk "2020" "Honda" "Civic" "L2" "01/01/2020".
Definition truck : car := Car.mk "1999" "FORD" "F150" "" "".
Definition lot : list car := [camry_old; civic_l1; camry_new; truck; civic_l2].

(** A report with two blocks for the same car and a block of one line. *)
Definition report : list string :=
  ["LKQ inventory";
   "2015 TOYOTA CAMRY available for parts 2015 TOYOTA CAMRY";
   "Section: A Row: 5 Space: 3";
   "Available: 01/10/2024";
   "2015 TOYOTA CAMRY available for parts 2015 TOYOTA CAMRY";
   "  Section: B  Row: 2  Space: 7  ";
   "Stock #: 1234";
   "Available: 03/15/2024";
   "1999 FORD F150 available for parts 1999 FORD F150"].

(** Rows as the reader yields them. *)
Definition row_of (car year location date : string) : gmap string cell :=
  {[ "car" := Some car; "year" := Some year;
     "location" := Some location; "date" := Some date ]}.

(** A line with two fields only: the reader fills the others with [None]. *)
Definition short_row : gmap string cell :=
  {[ "car" := Some "Honda Civic"; "year" := Some "2020";
     "location" := None; "date" := None ]}.

(** A directory where the report has no car and [LQK.csv] no row, and one
    with the sample report and a tabular file of two rows. *)
Definition bare_world : world :=
  World (Some (Ok ["LKQ inventory"; ""]))
        (λ f, if decide (f = "LQK.csv") then Some [] else None)
        (Typed "n") (λ _, None).

Definition stocked_world : world :=
  World (Some (Ok report))
        (λ f, if decide (f = "LQK.csv")
              then Some [Yield (row_of "Honda Civic" "2020" "L1" "01/01/2020");
                         Yield (row_of "Honda Civic" "2020" "L2" "01/01/2020")]
              else None)
        (Typed "n") (λ _, None).

(** ** Further vocabulary *)

(** A string without the space character. *)
Definition blank_free (s : string) : Prop := all_chars not_blank s = true.

(** The columns the tabular extractor reads. *)
Definition columns : list string := ["car"; "year"; "location"; "date"].



(** The entry of a record that is the only one of its key. *)
Definition single_entry (c : car) : Entry.t :=
  Entry.mk (Car.make c +:+ " " +:+ Car.model c) (Car.year c) "1"
    ("(1) " +:+ Car.available c) ("(1) " +:+ Car.location c).







(** A directory whose [LQK.txt] is not UTF-8, beside a good tabular file. *)
Definition garbled_world : world :=
  World (Some (Raise UnicodeDecodeError))
        (λ f, if decide (f = "LQK.csv")
              then Some [Yield (row_of "Honda Civic" "2020" "L1" "01/01/2020")]
              else None)
        (Typed "n") (λ _, None).

(** The Camry again, with a day that was mistyped. *)
Definition camry_mistyped : car :=
  Car.mk "2015" "TOYOTA" "CAMRY" "B 2 7" "03/1S/2024".

(** The rendering of a list of values in the words of the specification:
    each value after its number in parentheses, the numbers counting from
    1, the items separated by a comma and a space. *)
Definition label (i : nat) (v : string) : string :=
  "(" +:+ pretty i +:+ ") " +:+ v.

Fixpoint rendering_from (i : nat) (values : list string) : string :=
  match values with
  | [] => EmptyString
  | [v] => label i v
  | v :: rest => label i v +:+ ", " +:+ rendering_from (S i) rest
  end.

Definition rendering (values : list string) : string :=
  rendering_from 1 values.

(** * Properties *)

(** ** The definitions on sample inputs *)

Example parse_date_ex1 : parse_date "03/15/2024" = Ok (2024, 3, 15)%Z.
Proof. reflexivity. Qed.

Example parse_date_ex2 : parse_date "" = Ok (0, 0, 0)%Z.
Proof. reflexivity. Qed.

Example parse_date_ex3 : parse_date "2024-03-15" = Ok (0, 0, 0)%Z.
Proof. reflexivity. Qed.

Example parse_date_ex4 : parse_date " 3/ 15 /+2_024" = Ok (2024, 3, 15)%Z.
Proof. reflexivity. Qed.

Example car_match_ex :
  car_match "2015 TOYOTA CAMRY LE available for parts 2015 TOYOTA CAMRY LE"
  = Some ("2015", "TOYOTA", "CAMRY LE").
Proof. vm_compute. reflexivity. Qed.

Example section_match_ex :
  section_match "Section: A  Row: 5 Space: 3" = Some ("A", "5", "3").
Proof. vm_compute. reflexivity. Qed.

Example date_match_ex : date_match "Available:  01/10/2024" = Some "01/10/2024".
Proof. vm_compute. reflexivity. Qed.

Example consolidate_ex :
  consolidate [Car.mk "2020" "Honda" "Civic" "L1" "01/01/2020";
               Car.mk "2020" "Honda" "Civic" "L2" "01/01/2020"]
  = [Entry.mk "Honda Civic" "2020" "1" "(1) 01/01/2020" "(1) L1, (2) L2"].
Proof. vm_compute. reflexivity. Qed.

(** ** The two monads *)

Lemma result_bind_Ok {A B} (f : A → result B) (m : result A) (b : B) :
  m ≫= f = Ok b ↔ ∃ a, m = Ok a ∧ f a = Ok b.
Proof.
  destruct m as [a|e]; simpl.
  - split; [intros H; by exists a | intros (a' & [= <-] & H); done].
  - split; [discriminate | intros (a' & [=] & _)].
Qed.

Lemma res_bind {A B} (f : A → io B) (m : io A) :
  res (m ≫= f) = res m ≫= (λ a, res (f a)).
Proof. unfold mbind at 1, io_bind. by destruct (res m). Qed.

Lemma mapM_Ok {A B} (f : A → result B) (l : list A) (k : list B) :
  mapM f l = Ok k ↔ Forall2 (λ x y, f x = Ok y) l k.
Proof.
  revert k. induction l as [|x l IH]; intros k; simpl.
  - split; [intros [= <-]; constructor | by inversion 1].
  - rewrite result_bind_Ok. split.
    + intros (y & Hy & H). apply result_bind_Ok in H as (k' & Hk' & [= <-]).
      constructor; [done | by apply IH].
    + inversion 1 as [|? y ? k' Hy Hk']; subst. exists y. split; [done|].
      apply result_bind_Ok. exists k'. split; [by apply IH | done].
Qed.

Lemma mapM_is_Ok {A B} (f : A → result B) (l : list A) :
  is_Ok (mapM f l) ↔ Forall (λ x, is_Ok (f x)) l.
Proof.
  induction l as [|x l IH]; simpl.
  - split; [constructor | by exists []].
  - split.
    + intros [k Hk]. apply result_bind_Ok in Hk as (y & Hy & Hk).
      apply result_bind_Ok in Hk as (k' & Hk' & _).
      constructor; [by exists y | apply IH; by exists k'].
    + inversion 1 as [|?? [y Hy] Hl]; subst. apply IH in Hl as [k' Hk'].
      exists (y :: k'). by rewrite Hy, Hk'.
Qed.

(** ** The date ranking function *)

Lemma isdecimal_plain c :
  isdecimal c = true →
  int_space c = false ∧ c ≠ "+"%char ∧ c ≠ "-"%char ∧ c ≠ "_"%char
  ∧ c ≠ "/"%char.
Proof.
  destruct c as [[] [] [] [] [] [] [] []]; vm_compute; intros H;
    try discriminate H; repeat split; discriminate.
Qed.

Lemma scan_digits_numeral s acc n :
  all_chars isdecimal s = true →
  scan_digits false acc n s
  = Some (value_from acc s, n + String.length s, EmptyString).
Proof.
  revert acc n. induction s as [|c s IH]; intros acc n; simpl.
  - intros _. by rewrite Nat.add_0_r.
  - intros [Hc Hs]%andb_true_iff. rewrite Hc, IH by done.
    by rewrite Nat.add_succ_r.
Qed.

Lemma int_numeral s : numeral s → int s = Ok (decimal_value s).
Proof.
  intros [Hall [Hpos Hmax]]. destruct s as [|c s]; [simpl in Hpos; lia|].
  pose proof Hall as [Hc Hs]%andb_true_iff.
  destruct (isdecimal_plain c Hc) as (Hsp & Hplus & Hminus & Hus & _).
  unfold int. simpl skip_space. rewrite Hsp.
  assert (match String c s with
          | String "+"%char r => (false, r)
          | String "-"%char r => (true, r)
          | _ => (false, String c s)
          end = (false, String c s)) as ->.
  { destruct c as [[] [] [] [] [] [] [] []]; done. }
  assert (∀ (X : Type) (a b : X),
            match String c s with String "_"%char _ => a | _ => b end = b)
    as ->.
  { intros X a b. destruct c as [[] [] [] [] [] [] [] []]; done. }
  rewrite scan_digits_numeral by done. simpl String.length in *.
  rewrite decide_False by lia. rewrite decide_False by lia. done.
Qed.

Lemma split_part sep (a rest : string) :
  all_chars (λ c, bool_decide (c ≠ sep)) a = true →
  split sep (a +:+ String sep rest) = a :: split sep rest.
Proof.
  induction a as [|c a IH]; simpl.
  - intros _. by rewrite decide_True.
  - intros [Hc Ha]%andb_true_iff. apply bool_decide_eq_true in Hc.
    rewrite decide_False by done.
    change (String.append a (String sep rest)) with (a +:+ String sep rest).
    by rewrite IH.
Qed.

Lemma split_last sep (a : string) :
  all_chars (λ c, bool_decide (c ≠ sep)) a = true → split sep a = [a].
Proof.
  induction a as [|c a IH]; simpl; [done|].
  intros [Hc Ha]%andb_true_iff. apply bool_decide_eq_true in Hc.
  rewrite decide_False by done. by rewrite IH.
Qed.

Lemma numeral_no_slash s :
  all_chars isdecimal s = true →
  all_chars (λ c, bool_decide (c ≠ "/"%char)) s = true.
Proof.
  induction s as [|c s IH]; simpl; [done|].
  intros [Hc Hs]%andb_true_iff. rewrite IH by done.
  apply isdecimal_plain in Hc as (_ & _ & _ & _ & Hc).
  by rewrite bool_decide_eq_true_2.
Qed.

(** A well-formed date is ranked by its year, month and day. *)
Lemma parse_date_well_formed (m d y : string) :
  numeral m → numeral d → numeral y →
  parse_date (m +:+ "/" +:+ d +:+ "/" +:+ y)
  = Ok (decimal_value y, decimal_value m, decimal_value d).
Proof.
  intros Hm Hd Hy. unfold parse_date.
  change "/" with (String "/"%char EmptyString).
  change (String "/" "" +:+ d +:+ String "/" "" +:+ y)
    with (String "/"%char (d +:+ String "/"%char y)).
  rewrite split_part by (apply numeral_no_slash, Hm).
  rewrite split_part by (apply numeral_no_slash, Hd).
  rewrite split_last by (apply numeral_no_slash, Hy).
  rewrite decide_True by done.
  by rewrite !int_numeral by done.
Qed.

(** Anything that does not split into three parts gets the sentinel. *)
Lemma parse_date_other_part_count (s : string) :
  length (split "/" s) ≠ 3 → parse_date s = Ok (0, 0, 0)%Z.
Proof. intros H. unfold parse_date. by rewrite decide_False. Qed.

Lemma int_raises s e : int s = Raise e → e = ValueError.
Proof.
  unfold int. destruct (match skip_space s with
    | String "+"%char r => (false, r)
    | String "-"%char r => (true, r)
    | _ => (false, skip_space s) end) as [negative s2].
  assert (∀ body : result Z,
    (body = Raise e → e = ValueError) →
    match s2 with String "_"%char _ => Raise ValueError | _ => body end
    = Raise e → e = ValueError) as Hcase.
  { intros body Hbody. destruct s2 as [|c s2]; [done|].
    destruct c as [[] [] [] [] [] [] [] []]; first [done | by intros [= <-]]. }
  apply Hcase. clear Hcase.
  destruct (scan_digits false 0 0 s2) as [[[v n] rest]|]; [|by intros [= <-]].
  repeat case_decide; try by intros [= <-].
  destruct (skip_space rest); [done | by intros [= <-]].
Qed.

(** Three parts of which one is not an integer literal: [ValueError]. *)
Lemma parse_date_raises (s p1 p2 p3 : string) :
  split "/" s = [p1; p2; p3] →
  ¬ (is_Ok (int p1) ∧ is_Ok (int p2) ∧ is_Ok (int p3)) →
  parse_date s = Raise ValueError.
Proof.
  intros Hs Hbad. unfold parse_date. rewrite Hs. rewrite decide_True by done.
  destruct (int p1) as [v1|e1] eqn:H1; simpl.
  2:{ by apply int_raises in H1 as ->. }
  destruct (int p2) as [v2|e2] eqn:H2; simpl.
  2:{ by apply int_raises in H2 as ->. }
  destruct (int p3) as [v3|e3] eqn:H3; simpl.
  2:{ by apply int_raises in H3 as ->. }
  destruct Hbad. split_and!; by eexists.
Qed.

(** C1.  The ranking function is not total: on a date of three parts with
    a part that is not an integer, here a mistyped day, [int] raises
    [ValueError] and nothing in [parse_date] catches it. *)
Theorem parse_date_raises_on_non_numeric_part :
  parse_date "03/1S/2024" = Raise ValueError.
Proof. reflexivity. Qed.

(** The exception reaches the callers: the deduplicator raises when such a
    date sits in a group of two, and the conversion whenever it occurs. *)
Example remove_duplicates_raises :
  res (remove_duplicates
         [camry_old; Car.mk "2015" "TOYOTA" "CAMRY" "B 2 7" "03/1S/2024"])
  = Raise ValueError.
Proof. vm_compute. reflexivity. Qed.

(** ** The order on ranks *)

Ltac rank_order :=
  unfold rank_lt, rank_le, rank_ltb in *;
  repeat match goal with x : rank |- _ => destruct x as [[? ?] ?] end;
  repeat match goal with
    | H : _ |- _ =>
        first [ rewrite orb_true_iff in H | rewrite andb_true_iff in H
              | rewrite orb_false_iff in H | rewrite andb_false_iff in H
              | rewrite Z.ltb_lt in H | rewrite Z.eqb_eq in H
              | rewrite Z.ltb_ge in H | rewrite Z.eqb_neq in H ]
    end;
  rewrite ?orb_true_iff, ?andb_true_iff, ?orb_false_iff, ?andb_false_iff,
    ?Z.ltb_lt, ?Z.eqb_eq, ?Z.ltb_ge, ?Z.eqb_neq;
  try lia.

Lemma rank_lt_irrefl (a : rank) : ¬ rank_lt a a.
Proof. intros H. rank_order. Qed.

Lemma rank_le_refl (a : rank) : rank_le a a.
Proof. rank_order. Qed.

Lemma rank_le_trans (a b c : rank) : rank_le a b → rank_le b c → rank_le a c.
Proof. intros H1 H2. rank_order. Qed.

Lemma rank_lt_le_trans (a b c : rank) : rank_lt a b → rank_le b c → rank_lt a c.
Proof. intros H1 H2. rank_order. Qed.

Lemma rank_lt_le (a b : rank) : rank_lt a b → rank_le a b.
Proof. intros H. rank_order. Qed.

Lemma rank_le_antisym (a b : rank) : rank_le a b → rank_le b a → a = b.
Proof.
  intros H1 H2. destruct a as [[y1 m1] d1], b as [[y2 m2] d2].
  assert (y1 = y2 ∧ m1 = m2 ∧ d1 = d2) as (-> & -> & ->); [|done].
  rank_order.
Qed.

(** ** The sort: a stable permutation in key order *)

Section sort_facts.
Context {K A : Type} (lt : K → K → bool).

Lemma insert_stable_perm reverse (x : K * A) l :
  insert_stable lt reverse x l ≡ₚ x :: l.
Proof.
  induction l as [|y l IH]; simpl; [done|].
  destruct (goes_first lt reverse y x); [|done].
  rewrite IH. apply perm_swap.
Qed.

Lemma sort_stable_perm reverse (l : list (K * A)) :
  sort_stable lt reverse l ≡ₚ l.
Proof.
  induction l as [|x l IH]; simpl; [done|].
  rewrite insert_stable_perm. by constructor.
Qed.

Lemma sorted_by_perm (l : list A) (key : A → K) reverse :
  sorted_by lt l key reverse ≡ₚ l.
Proof.
  unfold sorted_by. rewrite sort_stable_perm.
  induction l as [|x l IH]; simpl; [done | by constructor].
Qed.

(** Elements with the same key come out in the order they went in. *)
Lemma insert_stable_filter `{EqDecision K} reverse (t : K) (x : K * A) l :
  (∀ a, lt a a = false) →
  filter (λ p, p.1 = t) (insert_stable lt reverse x l)
  = filter (λ p, p.1 = t) (x :: l).
Proof.
  intros Hirr. induction l as [|y l IH]; simpl; [done|].
  destruct (goes_first lt reverse y x) eqn:Hyx; [|done].
  assert (x.1 ≠ y.1) as Hne.
  { intros Heq. unfold goes_first in Hyx. rewrite Heq in Hyx.
    destruct reverse; by rewrite Hirr in Hyx. }
  rewrite !filter_cons in *. rewrite IH.
  destruct (decide (y.1 = t)), (decide (x.1 = t)); congruence.
Qed.

Lemma sort_stable_filter `{EqDecision K} reverse (t : K) (l : list (K * A)) :
  (∀ a, lt a a = false) →
  filter (λ p, p.1 = t) (sort_stable lt reverse l) = filter (λ p, p.1 = t) l.
Proof.
  intros Hirr. induction l as [|x l IH]; simpl; [done|].
  rewrite insert_stable_filter by done. rewrite !filter_cons.
  destruct (decide (x.1 = t)); by rewrite IH.
Qed.
End sort_facts.

Lemma rank_ltb_irrefl (a : rank) : rank_ltb a a = false.
Proof. apply rank_le_refl. Qed.

Section sort_newest_first.
Context {A : Type}.
Implicit Types (x c : rank * A) (l : list (rank * A)).

Lemma insert_newest_first_sorted x l :
  StronglySorted (λ a b, rank_le b.1 a.1) l →
  StronglySorted (λ a b, rank_le b.1 a.1) (insert_stable rank_ltb true x l).
Proof.
  induction 1 as [|y l Hl IH Hy]; simpl.
  - repeat constructor.
  - destruct (rank_ltb x.1 y.1) eqn:Hxy.
    + constructor; [done|]. rewrite insert_stable_perm.
      constructor; [by apply rank_lt_le | done].
    + constructor; [by constructor|]. constructor; [done|].
      eapply Forall_impl; [exact Hy|]. simpl. intros z Hz.
      by eapply rank_le_trans.
Qed.

Lemma sort_newest_first_sorted l :
  StronglySorted (λ a b, rank_le b.1 a.1) (sort_stable rank_ltb true l).
Proof.
  induction l as [|x l IH]; simpl; [constructor|].
  by apply insert_newest_first_sorted.
Qed.

(** The head of the sorted list is the first element of the input whose
    rank is maximal. *)
Lemma sort_newest_first_head l c s :
  sort_stable rank_ltb true l = c :: s →
  ∃ pre post, l = pre ++ c :: post
    ∧ Forall (λ x, rank_lt x.1 c.1) pre
    ∧ Forall (λ x, rank_le x.1 c.1) post.
Proof.
  revert c s. induction l as [|x l IH]; intros c s; simpl; [done|].
  destruct (sort_stable rank_ltb true l) as [|h s'] eqn:Hs; simpl.
  - intros [= <- <-]. exists [], l. split_and!; [done | constructor |].
    assert (l ≡ₚ []) as ->%Permutation_nil_r; [|constructor].
    by rewrite <-(sort_stable_perm rank_ltb true l), Hs.
  - destruct (IH h s' eq_refl) as (pre & post & -> & Hpre & Hpost).
    destruct (rank_ltb x.1 h.1) eqn:Hxh; intros [= <- <-].
    + exists (x :: pre), post. split_and!; [done | by constructor | done].
    + exists [], (pre ++ h :: post). split_and!; [done | constructor |].
      apply Forall_app. split; [|constructor; [done|]].
      * eapply Forall_impl; [exact Hpre|]. simpl. intros z Hz.
        eapply rank_le_trans; [by apply rank_lt_le | done].
      * eapply Forall_impl; [exact Hpost|]. simpl. intros z Hz.
        by eapply rank_le_trans.
Qed.
(** Sortedness and stability leave one list only, so it does not matter
    which stable algorithm stands for the builtin. *)
Lemma stable_sort_unique l1 l2 :
  StronglySorted (λ a b, rank_le b.1 a.1) l1 →
  StronglySorted (λ a b, rank_le b.1 a.1) l2 →
  (∀ t, filter (λ x, x.1 = t) l1 = filter (λ x, x.1 = t) l2) →
  l1 = l2.
Proof.
  intros H1. revert l2. induction H1 as [|p l1 Hs1 IH Hp]; intros l2 H2 Hst.
  - destruct l2 as [|q l2]; [done|]. specialize (Hst q.1).
    by rewrite filter_cons_True in Hst.
  - destruct H2 as [|q l2 Hs2 Hq].
    { specialize (Hst p.1). by rewrite filter_cons_True in Hst. }
    assert (p.1 = q.1) as Hkey.
    { apply rank_le_antisym.
      - assert (p ∈ q :: l2) as [->|Hin]%elem_of_cons.
        { apply (list_elem_of_filter (λ x, x.1 = p.1)).
          rewrite <-Hst, filter_cons_True by done. left. }
        + apply rank_le_refl.
        + by apply (proj1 (Forall_forall _ _) Hq).
      - assert (q ∈ p :: l1) as [->|Hin]%elem_of_cons.
        { apply (list_elem_of_filter (λ x, x.1 = q.1)).
          rewrite Hst, filter_cons_True by done. left. }
        + apply rank_le_refl.
        + by apply (proj1 (Forall_forall _ _) Hp). }
    pose proof (Hst p.1) as Hhead.
    rewrite !filter_cons_True in Hhead by done.
    injection Hhead as -> Htail. f_equal. apply IH; [done|].
    intros t. destruct (decide (t = q.1)) as [->|Hne]; [done|].
    specialize (Hst t). by rewrite !filter_cons_False in Hst by done.
Qed.

Lemma sort_newest_first_unique l l' :
  StronglySorted (λ a b, rank_le b.1 a.1) l' →
  (∀ t, filter (λ x, x.1 = t) l' = filter (λ x, x.1 = t) l) →
  l' = sort_stable rank_ltb true l.
Proof.
  intros Hs Hst. apply stable_sort_unique; [done | apply sort_newest_first_sorted|].
  intros t. rewrite Hst. symmetry. apply sort_stable_filter, rank_ltb_irrefl.
Qed.
End sort_newest_first.

(** ** Filters that keep everything or nothing *)

Section filter_facts.
Context {A : Type} (P : A → Prop) `{∀ x, Decision (P x)}.

Lemma filter_all (l : list A) : Forall P l → filter P l = l.
Proof.
  induction 1 as [|y l Hy Hl IH]; [done|].
  by rewrite filter_cons_True, IH.
Qed.

Lemma filter_none (l : list A) : Forall (λ x, ¬ P x) l → filter P l = [].
Proof.
  induction 1 as [|y l Hy Hl IH]; [done|].
  by rewrite filter_cons_False, IH.
Qed.
End filter_facts.

Lemma filter_unique {A K} `{EqDecision K} (f : A → K) (l : list A) (x : A) :
  NoDup (f <$> l) → x ∈ l → filter (λ y, f y = f x) l = [x].
Proof.
  induction l as [|a l IH]; csimpl; [by inversion 2|].
  intros [Ha Hl]%NoDup_cons [->|Hc]%elem_of_cons.
  - rewrite filter_cons_True by done. f_equal. apply filter_none.
    apply Forall_forall. intros y Hy Heq. apply Ha. rewrite <-Heq.
    by apply list_elem_of_fmap_2.
  - rewrite filter_cons_False; [by apply IH|].
    intros Heq. apply Ha. rewrite Heq. by apply list_elem_of_fmap_2.
Qed.

(** ** First occurrences *)

Section distinct_facts.
Context {K : Type} `{EqDecision K}.
Implicit Types (l : list K) (x : K).

Lemma elem_of_distinct l x : x ∈ distinct l ↔ x ∈ l.
Proof.
  induction l as [|y l IH]; simpl; [done|].
  rewrite !elem_of_cons, list_elem_of_filter, IH.
  destruct (decide (x = y)); tauto.
Qed.

Lemma NoDup_distinct l : NoDup (distinct l).
Proof.
  induction l as [|y l IH]; simpl; [constructor|].
  apply NoDup_cons. split; [|by apply NoDup_filter].
  rewrite list_elem_of_filter. tauto.
Qed.

Lemma distinct_NoDup l : NoDup l → distinct l = l.
Proof.
  induction 1 as [|y l Hy Hl IH]; simpl; [done|]. rewrite IH. f_equal.
  apply filter_all, Forall_forall. intros z Hz ->. done.
Qed.

Lemma length_distinct l : length (distinct l) ≤ length l.
Proof.
  induction l as [|y l IH]; simpl; [done|].
  pose proof (length_filter (λ z, z ≠ y) (distinct l)). lia.
Qed.

Lemma length_distinct_eq l : length (distinct l) = length l ↔ NoDup l.
Proof.
  split; [|by intros ->%distinct_NoDup].
  induction l as [|y l IH]; simpl; [constructor|]. intros Hlen.
  pose proof (length_filter (λ z, z ≠ y) (distinct l)) as H1.
  pose proof (length_distinct l) as H2.
  apply NoDup_cons. split; [|apply IH; lia].
  intros Hy. rewrite <-elem_of_distinct in Hy.
  pose proof (length_filter_lt (λ z, z ≠ y) (distinct l) y Hy) as H3.
  apply Nat.lt_irrefl with (length l).
  eapply Nat.le_lt_trans; [|eapply Nat.lt_le_trans; [apply H3; tauto | exact H2]].
  lia.
Qed.

Lemma distinct_snoc l x :
  distinct (l ++ [x]) = if decide (x ∈ l) then distinct l else distinct l ++ [x].
Proof.
  induction l as [|y l IH]; simpl; [done|]. rewrite IH.
  destruct (decide (x ∈ y :: l)) as [Hin'|Hin'], (decide (x ∈ l)) as [Hin|Hin];
    rewrite elem_of_cons in Hin'; try tauto.
  - destruct Hin' as [->|]; [|done].
    by rewrite filter_app, filter_cons_False, filter_nil, app_nil_r by tauto.
  - rewrite filter_app, filter_cons_True, filter_nil; [done|]. tauto.
Qed.
End distinct_facts.

(** ** Grouping by key with an insertion-ordered dict

    A loop that files each element under its key, creating the entry on
    first sight, builds the groups in order of first occurrence, each one
    folded over its elements in input order. *)
Section grouping.
Context {K V A : Type} `{EqDecision K}.
Context (key : A → K) (init : V) (upd : A → V → V).

Lemma dict_update_fmap (ks : list K) (g : K → V) (k : K) (f : V → V) :
  NoDup ks →
  dict_update k f ((λ k', (k', g k')) <$> ks)
  = (λ k', (k', if decide (k' = k) then f (g k') else g k')) <$> ks.
Proof.
  induction 1 as [|k0 ks Hk0 Hks IH]; csimpl; [done|].
  destruct (decide (k0 = k)) as [->|Hne]; [|by rewrite IH].
  f_equal. apply list_fmap_ext. intros i k' Hk'.
  rewrite decide_False; [done|]. intros ->.
  apply Hk0. by eapply list_elem_of_lookup_2.
Qed.

Lemma dict_update_update (k : K) (f1 f2 : V → V) (d : list (K * V)) :
  dict_update k f2 (dict_update k f1 d) = dict_update k (f2 ∘ f1) d.
Proof.
  induction d as [|[k0 v] d IH]; simpl; [done|].
  destruct (decide (k0 = k)) as [->|Hne]; simpl.
  - by rewrite decide_True.
  - by rewrite decide_False, IH.
Qed.

Lemma file_under_spec (l : list A) :
  foldl (file_under key init upd) [] l
  = group_of key init upd l <$> distinct (key <$> l).
Proof.
  induction l as [|a l IH] using rev_ind; [done|].
  rewrite foldl_snoc, IH, fmap_snoc, distinct_snoc. clear IH.
  unfold file_under, dict_setdefault, dict_has.
  rewrite <-list_fmap_compose.
  assert ((fst ∘ group_of key init upd l) <$> distinct (key <$> l)
          = distinct (key <$> l)) as ->.
  { rewrite (list_fmap_ext _ id) by done. apply list_fmap_id. }
  pose proof (NoDup_distinct (key <$> l)) as Hnd.
  destruct (decide (key a ∈ key <$> l)) as [Hin|Hin].
  - rewrite bool_decide_eq_true_2 by by apply elem_of_distinct.
    unfold group_of at 1. rewrite dict_update_fmap by done.
    apply list_fmap_ext. intros i k _. unfold group_of.
    rewrite filter_app, filter_cons, filter_nil.
    destruct (decide (k = key a)) as [->|Hne].
    + by rewrite decide_True, foldl_snoc by done.
    + by rewrite decide_False, app_nil_r by done.
  - rewrite bool_decide_eq_false_2 by by rewrite elem_of_distinct.
    assert ((group_of key init upd l <$> distinct (key <$> l))
            ++ [(key a, init)]
            = (λ k, (k, (group_of key init upd l k).2))
              <$> (distinct (key <$> l) ++ [key a])) as ->.
    { rewrite fmap_snoc. f_equal.
      unfold group_of. simpl. do 2 f_equal.
      rewrite filter_none; [done|].
      apply Forall_forall. intros b Hb Heq. apply Hin. rewrite <-Heq.
      by apply list_elem_of_fmap_2. }
    rewrite dict_update_fmap.
    2:{ apply NoDup_app. split_and!; [done | | apply NoDup_singleton].
        intros k Hk Hk'%list_elem_of_singleton.
        rewrite elem_of_distinct in Hk. apply Hin. by rewrite <-Hk'. }
    rewrite !fmap_snoc. f_equal.
    + apply list_fmap_ext. intros i k Hk. unfold group_of. simpl.
      assert (k ≠ key a) as Hne.
      { intros ->. apply Hin, elem_of_distinct.
        by eapply list_elem_of_lookup_2. }
      rewrite decide_False by done.
      by rewrite filter_app, filter_cons_False, filter_nil, app_nil_r by done.
    + unfold group_of. simpl. rewrite decide_True by done.
      by rewrite filter_app, filter_cons_True, filter_nil, foldl_snoc by done.
Qed.
End grouping.

(** ** What [sorted] returns *)

Section sorted_facts.
Context {K A : Type} (lt : K → K → bool) (key : A → result K).

Lemma mapM_keyed (l : list A) (keyed : list (K * A)) :
  mapM (λ x, k ← key x; mret (k, x)) l = Ok keyed
  ↔ Forall (λ p, key p.2 = Ok p.1) keyed ∧ keyed.*2 = l.
Proof.
  rewrite mapM_Ok. split.
  - induction 1 as [|x p l keyed Hp _ [IH1 IH2]]; [by split|].
    apply result_bind_Ok in Hp as (k & Hk & [= <-]).
    split; [by constructor | csimpl; by f_equal].
  - intros [Hall <-]. induction Hall as [|[k x] keyed Hp _ IH]; csimpl;
      constructor; [|done]. simpl in *. by rewrite Hp.
Qed.

Lemma sorted_Ok (l out : list A) (reverse : bool) :
  sorted lt l key reverse = Ok out
  ↔ ∃ keyed, Forall (λ p, key p.2 = Ok p.1) keyed ∧ keyed.*2 = l
       ∧ out = (sort_stable lt reverse keyed).*2.
Proof.
  unfold sorted. rewrite result_bind_Ok. split.
  - intros (keyed & [H1 H2]%mapM_keyed & [= <-]). by exists keyed.
  - intros (keyed & H1 & H2 & ->). exists keyed.
    split; [by apply mapM_keyed | done].
Qed.

Lemma sorted_is_Ok (l : list A) (reverse : bool) :
  is_Ok (sorted lt l key reverse) ↔ Forall (λ x, is_Ok (key x)) l.
Proof.
  rewrite <-(mapM_is_Ok key l). unfold sorted. split.
  - intros [out (keyed & [H1 H2]%mapM_keyed & _)%result_bind_Ok].
    exists keyed.*1. apply mapM_Ok. subst l. clear -H1.
    induction H1 as [|[k x] keyed Hp _ IH]; csimpl; by constructor.
  - intros [ks Hks%mapM_Ok].
    assert (is_Ok (mapM (λ x, k ← key x; mret (k, x)) l)) as [keyed ->].
    { apply mapM_is_Ok. eapply Forall2_Forall_l; [exact Hks|].
      apply Forall_forall. intros k _ x Hx. exists (k, x). by rewrite Hx. }
    by eexists.
Qed.

Lemma sorted_perm (l out : list A) (reverse : bool) :
  sorted lt l key reverse = Ok out → out ≡ₚ l.
Proof.
  intros (keyed & _ & <- & ->)%sorted_Ok.
  by rewrite sort_stable_perm.
Qed.
End sorted_facts.

(** ** The deduplicator, group by group *)

Lemma mapM_fmap {A B C} (f : B → result C) (g : A → B) (l : list A) :
  mapM f (g <$> l) = mapM (f ∘ g) l.
Proof.
  induction l as [|x l IH]; simpl; [done|].
  unfold fmap in IH. by rewrite IH.
Qed.

Lemma kept_one c : kept [c] = Ok c.
Proof. done. Qed.

Lemma kept_many group : length group ≠ 1 → kept group = newest group.
Proof. intros Hlen. unfold kept. by rewrite decide_False. Qed.

Lemma keep_newest_spec items unique_cars duplicates_removed :
  keep_newest items unique_cars duplicates_removed
  = cs ← mapM (λ it, kept it.2) items;
    Ok (unique_cars ++ cs,
        duplicates_removed + sum_list ((λ it, length it.2 - 1) <$> items)).
Proof.
  revert unique_cars duplicates_removed.
  induction items as [|[k group] items IH]; intros acc n; csimpl.
  - by rewrite app_nil_r, Nat.add_0_r.
  - destruct (decide (length group = 1)) as [Hlen|Hlen].
    + destruct group as [|c [|c' group]]; try done.
      rewrite kept_one, IH. simpl.
      destruct (mapM _ items) as [cs|e]; simpl; [|done].
      by rewrite <-app_assoc.
    + rewrite kept_many by done.
      destruct (newest group) as [c|e]; simpl; [|done]. rewrite IH.
      destruct (mapM _ items) as [cs|e]; simpl; [|done].
      by rewrite <-app_assoc, Nat.add_assoc.
Qed.

Lemma foldl_snoc_id {A} (l acc : list A) :
  foldl (λ v a, v ++ [a]) acc l = acc ++ l.
Proof.
  revert acc. induction l as [|x l IH]; intros acc; simpl.
  - by rewrite app_nil_r.
  - by rewrite IH, <-app_assoc.
Qed.

Lemma group_cars_spec cars :
  group_cars cars = (λ k, (k, same_key k cars)) <$> distinct (car_key <$> cars).
Proof.
  unfold group_cars.
  change add_car with (file_under car_key [] (λ (c : car) g, g ++ [c])).
  rewrite file_under_spec. apply list_fmap_ext. intros i k _.
  unfold group_of. by rewrite foldl_snoc_id.
Qed.

Lemma remove_duplicates_res cars :
  res (remove_duplicates cars)
  = mapM (λ k, kept (same_key k cars)) (distinct (car_key <$> cars)).
Proof.
  unfold remove_duplicates. rewrite res_bind. simpl.
  rewrite keep_newest_spec, group_cars_spec, mapM_fmap. simpl.
  destruct (mapM _ _) as [cs|e]; simpl; [|done].
  unfold mbind, io_bind. done.
Qed.

Lemma newest_first_max group c :
  newest group = Ok c →
  ∃ pre post, group = pre ++ c :: post
    ∧ Forall (λ x, older x c) pre ∧ Forall (λ x, not_newer x c) post.
Proof.
  unfold newest. intros (gs & Hgs & Hc)%result_bind_Ok.
  destruct gs as [|c' gs]; [done|]. injection Hc as ->.
  apply sorted_Ok in Hgs as (keyed & Hkeys & <- & Hsort).
  destruct (sort_stable rank_ltb true keyed) as [|[t c'] s] eqn:Hs; [done|].
  injection Hsort as -> _.
  apply sort_newest_first_head in Hs as (pre & post & -> & Hpre & Hpost).
  apply Forall_app in Hkeys as [Kpre Kpost].
  apply Forall_cons in Kpost as [Kc Kpost]. simpl in Kc.
  exists pre.*2, post.*2. split_and!.
  - by rewrite fmap_app.
  - apply Forall_fmap, Forall_forall. intros [tx x] Hx. simpl.
    exists tx, t. split_and!; [|done|].
    + by apply (proj1 (Forall_forall _ _) Kpre (tx, x)).
    + by apply (proj1 (Forall_forall _ _) Hpre (tx, x)).
  - apply Forall_fmap, Forall_forall. intros [tx x] Hx. simpl.
    exists tx, t. split_and!; [|done|].
    + by apply (proj1 (Forall_forall _ _) Kpost (tx, x)).
    + by apply (proj1 (Forall_forall _ _) Hpost (tx, x)).
Qed.

Lemma kept_first_max group c :
  kept group = Ok c →
  ∃ pre post, group = pre ++ c :: post
    ∧ Forall (λ x, older x c) pre ∧ Forall (λ x, not_newer x c) post.
Proof.
  destruct (decide (length group = 1)) as [Hlen|Hlen].
  - destruct group as [|c' [|c'' group]]; try done.
    rewrite kept_one. intros [= ->]. by exists [], [].
  - rewrite kept_many by done. apply newest_first_max.
Qed.

Lemma kept_elem group c : kept group = Ok c → c ∈ group.
Proof.
  intros (pre & post & -> & _)%kept_first_max.
  apply elem_of_app. right. left.
Qed.

Lemma kept_is_Ok group :
  is_Ok (kept group)
  ↔ group ≠ [] ∧ (length group ≠ 1 → Forall (λ x, is_Ok (date_key x)) group).
Proof.
  destruct (decide (length group = 1)) as [Hlen|Hlen].
  - destruct group as [|c [|c' group]]; try done.
    rewrite kept_one. split; [done | by exists c].
  - rewrite kept_many by done. unfold newest. split.
    + intros [c (gs & Hgs & Hc)%result_bind_Ok]. split.
      * intros ->. by apply sorted_perm, Permutation_nil_r in Hgs as ->.
      * intros _. apply (sorted_is_Ok rank_ltb date_key group true). by exists gs.
    + intros [Hne Hall].
      destruct (proj2 (sorted_is_Ok rank_ltb date_key group true) (Hall Hlen))
        as [gs Hgs].
      rewrite Hgs. simpl. destruct gs as [|c gs]; [|by exists c].
      by apply sorted_perm, Permutation_nil in Hgs.
Qed.

Lemma remove_duplicates_Ok cars out :
  res (remove_duplicates cars) = Ok out
  ↔ Forall2 (λ k c, kept (same_key k cars) = Ok c)
      (distinct (car_key <$> cars)) out.
Proof. by rewrite remove_duplicates_res, mapM_Ok. Qed.

Lemma same_key_elem k cars c : c ∈ same_key k cars ↔ car_key c = k ∧ c ∈ cars.
Proof. exact (list_elem_of_filter (λ x, car_key x = k) cars c). Qed.

Lemma remove_duplicates_keys cars out :
  res (remove_duplicates cars) = Ok out →
  car_key <$> out = distinct (car_key <$> cars).
Proof.
  intros H%remove_duplicates_Ok.
  induction H as [|k c ks out Hc _ IH]; csimpl; [done|]. f_equal; [|done].
  by apply kept_elem, same_key_elem in Hc as [? _].
Qed.

Lemma remove_duplicates_subset cars out c :
  res (remove_duplicates cars) = Ok out → c ∈ out → c ∈ cars.
Proof.
  intros H%remove_duplicates_Ok [i Hi]%list_elem_of_lookup.
  destruct (Forall2_lookup_r _ _ _ _ _ H Hi) as (k & _ & Hk).
  by apply kept_elem, same_key_elem in Hk as [_ ?].
Qed.

Lemma same_key_unique (l : list car) c :
  NoDup (car_key <$> l) → c ∈ l → same_key (car_key c) l = [c].
Proof. apply filter_unique. Qed.

Lemma remove_duplicates_returns cars :
  is_Ok (res (remove_duplicates cars)) ↔ comparable cars.
Proof.
  rewrite remove_duplicates_res, mapM_is_Ok. unfold comparable.
  rewrite !Forall_forall. split.
  - intros H c Hc Hlen.
    assert (car_key c ∈ distinct (car_key <$> cars)) as Hk.
    { apply elem_of_distinct. by apply list_elem_of_fmap_2. }
    apply H, kept_is_Ok in Hk as [_ Hall].
    apply (proj1 (Forall_forall _ _) (Hall Hlen)). by apply same_key_elem.
  - intros H k Hk. apply kept_is_Ok. split.
    + rewrite elem_of_distinct in Hk.
      apply list_elem_of_fmap in Hk as (c & -> & Hc). intros Hnil.
      assert (c ∈ same_key (car_key c) cars) as Hin by by apply same_key_elem.
      rewrite Hnil in Hin. by apply elem_of_nil in Hin.
    + intros Hlen. apply Forall_forall. intros x [<- Hx]%same_key_elem.
      by apply H.
Qed.

(** ** The deduplicator and the conversion *)

(** On every input whose groups can be sorted, the deduplicator
    returns one record per identity key, in order of first occurrence of
    the keys; the record kept for a key is the one of its group (the input
    records with that key, in input order) with the highest rank, and among
    several of highest rank the first: every record before it in the group
    ranks strictly lower, every record after it does not rank higher. *)
Theorem remove_duplicates_keeps_first_newest (cars : list car) :
  comparable cars →
  ∃ out, res (remove_duplicates cars) = Ok out
    ∧ car_key <$> out = distinct (car_key <$> cars)
    ∧ ∀ k, k ∈ car_key <$> cars →
        ∃ pre c post,
          same_key k cars = pre ++ c :: post
          ∧ same_key k out = [c]
          ∧ Forall (λ x, older x c) pre
          ∧ Forall (λ x, not_newer x c) post.
Proof.
  intros [out Hout]%remove_duplicates_returns. exists out.
  pose proof (remove_duplicates_keys _ _ Hout) as Hkeys.
  split_and!; [done..|]. intros k Hk.
  rewrite <-elem_of_distinct in Hk.
  apply list_elem_of_lookup in Hk as [i Hi].
  apply remove_duplicates_Ok in Hout.
  destruct (Forall2_lookup_l _ _ _ _ _ Hout Hi) as (c & Hc & Hkept).
  destruct (kept_first_max _ _ Hkept) as (pre & post & Hsplit & Hpre & Hpost).
  exists pre, c, post. split_and!; [done| |done..].
  assert (car_key c = k) as <-.
  { by apply kept_elem, same_key_elem in Hkept as [? _]. }
  apply same_key_unique.
  - rewrite Hkeys. apply NoDup_distinct.
  - by eapply list_elem_of_lookup_2.
Qed.

(** C4.  The deduplicator applied to a list it has returned returns that
    list. *)
Theorem remove_duplicates_idempotent (cars out : list car) :
  res (remove_duplicates cars) = Ok out →
  res (remove_duplicates out) = Ok out.
Proof.
  intros Hout. pose proof (remove_duplicates_keys _ _ Hout) as Hkeys.
  assert (NoDup (car_key <$> out)) as Hnd.
  { rewrite Hkeys. apply NoDup_distinct. }
  apply remove_duplicates_Ok. rewrite distinct_NoDup by done.
  apply Forall2_fmap_l, Forall_Forall2_diag, Forall_forall.
  intros c Hc. simpl. by rewrite same_key_unique.
Qed.

(** On every input whose groups can be sorted, the deduplicator returns at
    most as many records as it is given, and exactly as many if and only
    if no two input records share their (year, make, model). *)
Theorem remove_duplicates_count (cars : list car) :
  comparable cars →
  ∃ out, res (remove_duplicates cars) = Ok out
    ∧ length out ≤ length cars
    ∧ (length out = length cars ↔ NoDup (car_key <$> cars)).
Proof.
  intros [out Hout]%remove_duplicates_returns. exists out.
  apply remove_duplicates_keys in Hout as Hkeys.
  assert (length out = length (distinct (car_key <$> cars))) as ->.
  { by rewrite <-Hkeys, length_fmap. }
  split_and!; [done| |].
  - rewrite <-(length_fmap car_key cars). apply length_distinct.
  - rewrite <-(length_fmap car_key cars). apply length_distinct_eq.
Qed.

(** C3.  The deduplicator does not output the highest-ranked record of
    every group.  In this group of two the first record has a date that
    ranks and the second a date with a part that is no number: the sort of
    line 140 calls [parse_date] on both, [int] raises [ValueError], and the
    deduplicator returns no record at all and prints nothing.  It is the
    defect of C1, met through [remove_duplicates]. *)
Theorem remove_duplicates_raises_in_group :
  same_key (car_key camry_old) [camry_old; camry_mistyped]
  = [camry_old; camry_mistyped]
  ∧ date_key camry_old = Ok (2024, 1, 10)%Z
  ∧ date_key camry_mistyped = Raise ValueError
  ∧ remove_duplicates [camry_old; camry_mistyped] = IO [] (Raise ValueError).
Proof. vm_compute. by split_and!. Qed.

(** C5.  The deduplicator has no output to count on this input of three
    records: two of them share a key and one of the two has a date with a
    part that is no number, so the sort of the group raises [ValueError],
    no list is returned and the count of removed duplicates is not
    printed.  It is the defect of C1, met through [remove_duplicates]. *)
Theorem remove_duplicates_no_count :
  ¬ NoDup (car_key <$> [civic_l1; camry_old; camry_mistyped])
  ∧ (∀ unique,
       res (remove_duplicates [civic_l1; camry_old; camry_mistyped])
       ≠ Ok unique)
  ∧ out (remove_duplicates [civic_l1; camry_old; camry_mistyped]) = [].
Proof.
  split_and!.
  - intros Hnd. apply NoDup_cons in Hnd as [_ Hnd].
    apply NoDup_cons in Hnd as [Hnew _]. apply Hnew. left.
  - intros unique. vm_compute. discriminate.
  - vm_compute. reflexivity.
Qed.

Lemma filter_keyed {K A} `{EqDecision K} (key : A → result K) (t : K)
    (keyed : list (K * A)) :
  Forall (λ p, key p.2 = Ok p.1) keyed →
  filter (λ x, key x = Ok t) keyed.*2 = (filter (λ p, p.1 = t) keyed).*2.
Proof.
  induction 1 as [|[k x] keyed Hk _ IH]; csimpl; [done|]. simpl in Hk.
  rewrite !filter_cons, IH. simpl.
  destruct (decide (key x = Ok t)) as [Heq|Hne], (decide (k = t)) as [->|Hne'];
    try done; congruence.
Qed.

Lemma convert_to_site_format_res cars :
  res (convert_to_site_format cars)
  = unique ← res (remove_duplicates cars); sorted rank_ltb unique date_key true.
Proof. unfold convert_to_site_format. by rewrite res_bind. Qed.

(** The conversion returns exactly when every date can be ranked. *)
Lemma convert_to_site_format_returns cars :
  is_Ok (res (convert_to_site_format cars))
  ↔ Forall (λ c, is_Ok (date_key c)) cars.
Proof.
  rewrite convert_to_site_format_res. split.
  - intros [out (unique & Hu & Hout)%result_bind_Ok].
    assert (Forall (λ c, is_Ok (date_key c)) unique) as Hall.
    { apply (sorted_is_Ok rank_ltb date_key unique true). by exists out. }
    assert (comparable cars) as Hcmp.
    { apply remove_duplicates_returns. by exists unique. }
    apply Forall_forall. intros c Hc.
    destruct (decide (length (same_key (car_key c) cars) = 1)) as [Hlen|Hlen].
    + apply (proj1 (Forall_forall _ _) Hall).
      apply remove_duplicates_Ok in Hu.
      assert (car_key c ∈ distinct (car_key <$> cars)) as [i Hi]%list_elem_of_lookup.
      { apply elem_of_distinct. by apply list_elem_of_fmap_2. }
      destruct (Forall2_lookup_l _ _ _ _ _ Hu Hi) as (c' & Hc' & Hkept).
      assert (c ∈ same_key (car_key c) cars) as Hin by by apply same_key_elem.
      destruct (same_key (car_key c) cars) as [|c0 [|c1 group]]; try done.
      apply list_elem_of_singleton in Hin as ->.
      rewrite kept_one in Hkept. injection Hkept as ->.
      by eapply list_elem_of_lookup_2.
    + by apply (proj1 (Forall_forall _ _) Hcmp).
  - intros Hall.
    assert (comparable cars) as [unique Hu]%remove_duplicates_returns.
    { eapply Forall_impl; [exact Hall|]. by intros c Hc _. }
    rewrite Hu. simpl. apply sorted_is_Ok, Forall_forall. intros c Hc.
    apply (proj1 (Forall_forall _ _) Hall). by eapply remove_duplicates_subset.
Qed.

(** C7.  When every date can be ranked, the conversion returns the
    deduplicated records rearranged so that no record is followed, at any
    distance, by one of higher rank; records of equal rank keep the order
    the deduplicator gave them. *)
Theorem flat_listing_sorted (cars : list car) :
  Forall (λ c, is_Ok (date_key c)) cars →
  ∃ unique out,
    res (remove_duplicates cars) = Ok unique
    ∧ res (convert_to_site_format cars) = Ok out
    ∧ out ≡ₚ unique
    ∧ StronglySorted (λ a b, not_newer b a) out
    ∧ ∀ t, filter (λ c, date_key c = Ok t) out
           = filter (λ c, date_key c = Ok t) unique.
Proof.
  intros [out Hout]%convert_to_site_format_returns.
  rewrite convert_to_site_format_res in Hout.
  apply result_bind_Ok in Hout as (unique & Hu & Hout).
  exists unique, out. rewrite convert_to_site_format_res, Hu. simpl.
  split_and!; [done..| by eapply sorted_perm | |].
  - apply sorted_Ok in Hout as (keyed & Hkeys & <- & ->).
    assert (Forall (λ p : rank * car, date_key p.2 = Ok p.1)
              (sort_stable rank_ltb true keyed)) as Hkeys'.
    { by rewrite sort_stable_perm. }
    pose proof (sort_newest_first_sorted keyed) as Hs.
    induction Hs as [|p l Hl IH Hp]; csimpl; [constructor|].
    apply Forall_cons in Hkeys' as [Kp Kl].
    constructor; [by apply IH|].
    apply Forall_fmap, Forall_forall. intros q Hq. simpl.
    exists q.1, p.1. split_and!; [|done|].
    + by apply (proj1 (Forall_forall _ _) Kl).
    + by apply (proj1 (Forall_forall _ _) Hp).
  - intros t. apply sorted_Ok in Hout as (keyed & Hkeys & <- & ->).
    rewrite !filter_keyed; [|done | by rewrite sort_stable_perm].
    by rewrite sort_stable_filter by apply rank_ltb_irrefl.
Qed.

Example remove_duplicates_lot :
  remove_duplicates lot
  = IO [Print (MRemoved 2)] (Ok [camry_new; civic_l1; truck]).
Proof. vm_compute. reflexivity. Qed.

Example convert_to_site_format_lot :
  res (convert_to_site_format lot) = Ok [camry_new; civic_l1; truck].
Proof. vm_compute. reflexivity. Qed.

Lemma lot_rankable : Forall (λ c, is_Ok (date_key c)) lot.
Proof. repeat constructor; eexists; vm_compute; reflexivity. Defined.

Lemma lot_comparable : comparable lot.
Proof. eapply Forall_impl; [exact lot_rankable|]. by intros c Hc _. Defined.

Lemma remove_duplicates_keeps_first_newest_witness :
  comparable lot
  ∧ ∃ out, res (remove_duplicates lot) = Ok out
      ∧ car_key <$> out = distinct (car_key <$> lot).
Proof.
  split; [exact lot_comparable|].
  destruct (remove_duplicates_keeps_first_newest lot lot_comparable)
    as (out & Hout & Hkeys & _).
  exists out. split; [exact Hout | exact Hkeys].
Defined.

Lemma remove_duplicates_idempotent_witness :
  res (remove_duplicates lot) = Ok [camry_new; civic_l1; truck]
  ∧ res (remove_duplicates [camry_new; civic_l1; truck])
    = Ok [camry_new; civic_l1; truck].
Proof.
  assert (res (remove_duplicates lot) = Ok [camry_new; civic_l1; truck]) as H.
  { vm_compute. reflexivity. }
  split; [exact H | exact (remove_duplicates_idempotent lot _ H)].
Defined.

Lemma remove_duplicates_count_witness :
  comparable lot
  ∧ ∃ out, res (remove_duplicates lot) = Ok out ∧ length out ≤ length lot.
Proof.
  split; [exact lot_comparable|].
  destruct (remove_duplicates_count lot lot_comparable) as (out & Hout & Hle & _).
  exists out. split; [exact Hout | exact Hle].
Defined.

Lemma flat_listing_sorted_witness :
  Forall (λ c, is_Ok (date_key c)) lot
  ∧ ∃ out, res (convert_to_site_format lot) = Ok out
      ∧ StronglySorted (λ a b, not_newer b a) out.
Proof.
  split; [exact lot_rankable|].
  destruct (flat_listing_sorted lot lot_rankable)
    as (unique & out & _ & Hout & _ & Hsorted & _).
  exists out. split; [exact Hout | exact Hsorted].
Defined.

(** ** The tabular extractor *)

Lemma read_rows_all rows cars acc :
  Forall2 (λ row c, row_to_car row = Ok c) rows cars →
  read_rows (Yield <$> rows) acc = (acc ++ cars, None).
Proof.
  intros H. revert acc.
  induction H as [|row c rows cars Hc _ IH]; intros acc; csimpl.
  - by rewrite app_nil_r.
  - rewrite Hc, IH. by rewrite <-app_assoc.
Qed.

Lemma read_rows_until_failure rows cars bad rest e acc :
  Forall2 (λ row c, row_to_car row = Ok c) rows cars →
  fails bad e →
  read_rows ((Yield <$> rows) ++ bad :: rest) acc = (acc ++ cars, Some e).
Proof.
  intros H Hbad. revert acc.
  induction H as [|row c rows cars Hc _ IH]; intros acc; csimpl.
  - rewrite app_nil_r. destruct bad as [row|e']; simpl in *; by rewrite Hbad.
  - rewrite Hc, IH. by rewrite <-app_assoc.
Qed.

Lemma row_to_car_year row c :
  row_to_car row = Ok c → get_strip row "year" = Ok (Car.year c).
Proof.
  unfold row_to_car.
  intros (car_name & _ & H)%result_bind_Ok.
  apply result_bind_Ok in H as (year & Hyear & H).
  apply result_bind_Ok in H as (location & _ & H).
  apply result_bind_Ok in H as (available & _ & [= <-]). done.
Qed.

(** A failure on the first row: the extractor prints the error and returns
    the empty sequence, which contradicts C9 as it is stated. *)
Lemma parse_csv_file_empty_when_first_row_fails :
  fails (Yield short_row) AttributeError
  ∧ parse_csv_file "LQK.csv"
      (Some [Yield short_row; Yield (row_of "FORD F150" "1999" "" "")])
    = IO [Print (MErrorParsing "LQK.csv" AttributeError)] (Ok []).
Proof. split; vm_compute; reflexivity. Qed.

(** C9, amended.  When the reader raises or a row cannot be converted,
    after rows that were converted, the tabular extractor raises nothing:
    it prints the error and returns the records of the rows before the
    failure, all of them and nothing else; that is the empty sequence when
    the failure came first. *)
Theorem parse_csv_file_keeps_rows_before_failure
    (csv_file : string) (rows : list (gmap string cell)) (cars : list car)
    (bad : reader_event) (rest : list reader_event) (e : exn) :
  Forall2 (λ row c, row_to_car row = Ok c) rows cars →
  fails bad e →
  parse_csv_file csv_file (Some ((Yield <$> rows) ++ bad :: rest))
  = IO [Print (MErrorParsing csv_file e)] (Ok cars)
  ∧ length cars = length rows.
Proof.
  intros Hrows Hbad. split; [|symmetry; by eapply Forall2_length].
  unfold parse_csv_file.
  by rewrite (read_rows_until_failure rows cars bad rest e []).
Qed.

Lemma parse_csv_file_keeps_rows_before_failure_witness :
  parse_csv_file "LQK.csv"
    (Some ((Yield <$> [row_of "Honda Civic" "2020" "L1" "01/01/2020";
                       row_of "TOYOTA CAMRY LE" " 2015" "B 2 7" "03/15/2024"])
           ++ Yield short_row :: [Yield (row_of "FORD F150" "1999" "" "")]))
  = IO [Print (MErrorParsing "LQK.csv" AttributeError)]
       (Ok [civic_l1; Car.mk "2015" "TOYOTA" "CAMRY LE" "B 2 7" "03/15/2024"])
  ∧ length [civic_l1; Car.mk "2015" "TOYOTA" "CAMRY LE" "B 2 7" "03/15/2024"]
    = length [row_of "Honda Civic" "2020" "L1" "01/01/2020";
              row_of "TOYOTA CAMRY LE" " 2015" "B 2 7" "03/15/2024"].
Proof.
  apply parse_csv_file_keeps_rows_before_failure.
  - repeat constructor; vm_compute; reflexivity.
  - vm_compute. reflexivity.
Defined.

(** ** The report patterns *)

Lemma elem_of_counts n lo hi greedy avail :
  n ∈ counts lo hi greedy avail →
  lo ≤ n ≤ avail ∧ ∀ h, hi = Some h → n ≤ h.
Proof.
  unfold counts. intros Hn.
  assert (n ∈ seq lo (S (match hi with Some h => h `min` avail | None => avail end) - lo))
    as Hseq.
  { destruct greedy; [by rewrite elem_of_reverse in Hn | done]. }
  apply elem_of_seq in Hseq. destruct hi as [h|]; split; try lia.
  - intros h' [= <-]. lia.
  - by intros h' [=].
Qed.

Lemma first_some_Some {A B} (f : A → option B) (l : list A) (y : B) :
  first_some f l = Some y → ∃ x, x ∈ l ∧ f x = Some y.
Proof.
  induction l as [|x l IH]; simpl; [done|].
  destruct (f x) as [y'|] eqn:Hx.
  - intros [= <-]. exists x. split; [left | done].
  - intros (x' & Hx' & Hy)%IH. exists x'. split; [by right | done].
Qed.

Lemma str_take_run cls n s :
  n ≤ run_length cls s →
  String.length (str_take n s) = n ∧ all_chars cls (str_take n s) = true.
Proof.
  revert s. induction n as [|n IH]; intros s; [by destruct s|].
  destruct s as [|c s]; simpl; [lia|].
  destruct (cls c) eqn:Hc; [|lia]. intros Hn.
  destruct (IH s) as [H1 H2]; [lia|]. by rewrite H1, H2.
Qed.

Lemma match_here_capture cls lo hi greedy rest s groups :
  match_here (Rep cls lo hi greedy true :: rest) s = Some groups →
  ∃ n groups', groups = str_take n s :: groups'
    ∧ lo ≤ n ≤ run_length cls s ∧ ∀ h, hi = Some h → n ≤ h.
Proof.
  simpl. intros (n & Hn & Hg)%first_some_Some.
  apply elem_of_counts in Hn.
  destruct (match_here rest (str_drop n s)) as [groups'|]; [|done].
  injection Hg as <-. by exists n, groups'.
Qed.

Lemma car_match_year line year make model :
  car_match line = Some (year, make, model) → four_digits year.
Proof.
  unfold car_match, re_match, car_pattern.
  destruct (match_here _ line) as [groups|] eqn:Hm; [|done].
  apply match_here_capture in Hm as (n & groups' & -> & [Hlo Hrun] & Hhi).
  specialize (Hhi 4 eq_refl). assert (n = 4) as -> by lia.
  destruct groups' as [|g2 [|g3 [|g4 groups']]]; try done.
  intros [= <- _ _]. exact (str_take_run isdecimal 4 line Hrun).
Qed.

(** ** The report-format extractor, line by line *)

Lemma lqk_line_start cars current_car raw year make model :
  car_match (strip raw) = Some (year, make, model) →
  lqk_line (cars, current_car) raw
  = (cars ++ option_list current_car,
     Some (update_car (Car.mk year make (strip model) EmptyString EmptyString)
             (strip raw))).
Proof.
  intros Hm. unfold lqk_line, update_car. rewrite Hm.
  destruct current_car as [c|]; simpl; rewrite ?app_nil_r;
    by destruct (section_match _) as [[[??]?]|], (date_match _).
Qed.

Lemma lqk_line_inside cars c raw :
  ¬ starts raw →
  lqk_line (cars, Some c) raw = (cars, Some (update_car c (strip raw))).
Proof.
  intros Hs. unfold lqk_line, update_car.
  destruct (car_match (strip raw)) as [[[??]?]|] eqn:Hm.
  { destruct Hs. unfold starts. by rewrite Hm. }
  by destruct (section_match _) as [[[??]?]|], (date_match _).
Qed.

Lemma lqk_line_outside cars raw :
  ¬ starts raw → lqk_line (cars, None) raw = (cars, None).
Proof.
  intros Hs. unfold lqk_line.
  destruct (car_match (strip raw)) as [[[??]?]|] eqn:Hm.
  { destruct Hs. unfold starts. by rewrite Hm. }
  by destruct (section_match _) as [[[??]?]|], (date_match _).
Qed.

Lemma update_car_key c line :
  Car.year (update_car c line) = Car.year c
  ∧ Car.make (update_car c line) = Car.make c
  ∧ Car.model (update_car c line) = Car.model c.
Proof.
  unfold update_car.
  by destruct (section_match line) as [[[??]?]|], (date_match line).
Qed.

Lemma lqk_line_years st raw :
  Forall (λ c, four_digits (Car.year c)) (st.1 ++ option_list st.2) →
  Forall (λ c, four_digits (Car.year c))
    ((lqk_line st raw).1 ++ option_list (lqk_line st raw).2).
Proof.
  destruct st as [cars cur]. intros Hinv. simpl in Hinv.
  destruct (car_match (strip raw)) as [[[year make] model]|] eqn:Hm.
  - rewrite (lqk_line_start _ _ _ _ _ _ Hm). simpl.
    apply Forall_app. split; [done|]. apply Forall_singleton.
    destruct (update_car_key (Car.mk year make (strip model) "" "") (strip raw))
      as (-> & _). simpl. by eapply car_match_year.
  - assert (¬ starts raw) as Hs. { unfold starts. rewrite Hm. by intros [? [=]]. }
    destruct cur as [c|].
    + rewrite lqk_line_inside by done. simpl.
      apply Forall_app in Hinv as [Hcars Hc]. simpl in Hc.
      rewrite Forall_singleton in Hc.
      apply Forall_app. split; [done|]. apply Forall_singleton.
      by destruct (update_car_key c (strip raw)) as (-> & _).
    + by rewrite lqk_line_outside by done.
Qed.

Lemma parse_lqk_file_lines input_file lines :
  parse_lqk_file input_file (Some (Ok lines))
  = IO [] (Ok (lqk_flush (foldl lqk_line ([], None) lines))).
Proof. done. Qed.

Lemma parse_lqk_file_years input_file file cars :
  res (parse_lqk_file input_file file) = Ok cars →
  Forall (λ c, four_digits (Car.year c)) cars.
Proof.
  destruct file as [[lines|e]|]; simpl; [|done|by intros [= <-]]. intros [= <-].
  assert (∀ st, Forall (λ c, four_digits (Car.year c)) (st.1 ++ option_list st.2) →
            Forall (λ c, four_digits (Car.year c))
              (lqk_flush (foldl lqk_line st lines))) as H.
  { induction lines as [|raw lines IH]; intros st Hst; simpl.
    - unfold lqk_flush. destruct st as [cars [c|]]; simpl in *; [done|].
      by rewrite app_nil_r in Hst.
    - by apply IH, lqk_line_years. }
  apply H. constructor.
Qed.

Example parse_lqk_file_report :
  parse_lqk_file "LQK.txt" (Some (Ok report))
  = IO [] (Ok [camry_old; camry_new; truck]).
Proof. vm_compute. reflexivity. Qed.

(** A row with an empty year cell is emitted like any other, which
    contradicts C2 as it is stated. *)
Lemma tabular_extractor_emits_empty_year :
  ∃ cars,
    res (parse_csv_file "LQK.csv"
           (Some [Yield (row_of "Honda Civic" "" "L1" "01/01/2020")])) = Ok cars
    ∧ ¬ Forall (λ c, Car.year c ≠ EmptyString) cars.
Proof.
  exists [Car.mk "" "Honda" "Civic" "L1" "01/01/2020"].
  split; [vm_compute; reflexivity|].
  intros H. apply Forall_cons in H as [H _]. by apply H.
Qed.

(** C2, amended.  Every record the report-format extractor emits has a
    year of four digits, so a non-empty one.  The tabular extractor does
    not look at the year: it emits a record for every row it converts, and
    the year of the record is the stripped [year] cell, empty or not. *)
Theorem extractors_year (input_file : string) (file : option (list string))
    (csv_file : string) (rows : list (gmap string cell)) (cars : list car) :
  Forall2 (λ row c, row_to_car row = Ok c) rows cars →
  (∃ out, res (parse_lqk_file input_file (Ok <$> file)) = Ok out
     ∧ Forall (λ c, Car.year c ≠ EmptyString ∧ four_digits (Car.year c)) out)
  ∧ res (parse_csv_file csv_file (Some (Yield <$> rows))) = Ok cars
  ∧ Forall2 (λ row c, get_strip row "year" = Ok (Car.year c)) rows cars.
Proof.
  intros Hrows. split_and!.
  - assert (is_Ok (res (parse_lqk_file input_file (Ok <$> file)))) as [out Hout].
    { destruct file; by eexists. }
    exists out. split; [done|].
    eapply Forall_impl; [by eapply parse_lqk_file_years|].
    intros c Hc. split; [|done]. intros Hy. destruct Hc as [Hlen _].
    by rewrite Hy in Hlen.
  - unfold parse_csv_file. by rewrite (read_rows_all rows cars []).
  - eapply Forall2_impl; [exact Hrows|]. apply row_to_car_year.
Qed.

Lemma extractors_year_witness :
  (∃ out, res (parse_lqk_file "LQK.txt" (Some (Ok report))) = Ok out
     ∧ Forall (λ c, Car.year c ≠ EmptyString ∧ four_digits (Car.year c)) out)
  ∧ res (parse_csv_file "LQK.csv"
           (Some (Yield <$> [row_of "Honda Civic" "" "L1" "01/01/2020"])))
    = Ok [Car.mk "" "Honda" "Civic" "L1" "01/01/2020"]
  ∧ Forall2 (λ row c, get_strip row "year" = Ok (Car.year c))
      [row_of "Honda Civic" "" "L1" "01/01/2020"]
      [Car.mk "" "Honda" "Civic" "L1" "01/01/2020"].
Proof.
  apply (extractors_year "LQK.txt" (Some report)).
  constructor; [vm_compute; reflexivity | constructor].
Defined.

(** ** The report-format extractor, block by block *)

Lemma last_match_cons {X} (f : string → option X) raw lines :
  last_match f (raw :: lines)
  = match last_match f lines with
    | Some v => Some v
    | None => f (strip raw)
    end.
Proof.
  unfold last_match. csimpl. destruct (f (strip raw)) as [v|]; simpl.
  - rewrite last_cons. by destruct (last _).
  - by destruct (last _).
Qed.

Lemma foldl_update_car c lines :
  foldl (λ c raw, update_car c (strip raw)) c lines
  = Car.mk (Car.year c) (Car.make c) (Car.model c)
      match last_match section_match lines with
      | Some (section, row, space) =>
          strip (strip section +:+ " " +:+ strip row +:+ " " +:+ strip space)
      | None => Car.location c
      end
      match last_match date_match lines with
      | Some d => strip d
      | None => Car.available c
      end.
Proof.
  revert c. induction lines as [|raw lines IH]; intros c; simpl.
  - by destruct c.
  - rewrite IH, !last_match_cons.
    destruct (update_car_key c (strip raw)) as (-> & -> & ->).
    unfold update_car.
    destruct (last_match section_match lines) as [[[??]?]|],
      (last_match date_match lines),
      (section_match (strip raw)) as [[[??]?]|],
      (date_match (strip raw)); done.
Qed.

Lemma foldl_cons {A B} (f : A → B → A) (a : A) (x : B) (l : list B) :
  foldl f a (x :: l) = foldl f (f a x) l.
Proof. done. Qed.

Lemma lqk_inside cars c body :
  Forall (λ raw, ¬ starts raw) body →
  foldl lqk_line (cars, Some c) body
  = (cars, Some (foldl (λ c raw, update_car c (strip raw)) c body)).
Proof.
  intros H. revert c. induction H as [|raw body Hraw _ IH]; intros c; [done|].
  by rewrite !foldl_cons, lqk_line_inside, IH.
Qed.

Lemma lqk_outside cars pre :
  Forall (λ raw, ¬ starts raw) pre → foldl lqk_line (cars, None) pre = (cars, None).
Proof.
  induction 1 as [|raw pre Hraw _ IH]; [done|].
  by rewrite foldl_cons, lqk_line_outside, IH.
Qed.

Lemma is_block_record block : is_block block → is_Some (block_record block).
Proof.
  destruct block as [|start body]; [done|]. intros [[[[y mk] md] Hs] _].
  unfold block_record. rewrite Hs. by eexists.
Qed.

Lemma lqk_block cars current_car block c :
  is_block block → block_record block = Some c →
  foldl lqk_line (cars, current_car) block
  = (cars ++ option_list current_car, Some c).
Proof.
  destruct block as [|start body]; [done|]. intros [_ Hbody].
  unfold block_record.
  destruct (car_match (strip start)) as [[[year make] model]|] eqn:Hm; [|done].
  intros [= <-].
  rewrite foldl_cons, (lqk_line_start _ _ _ _ _ _ Hm), lqk_inside by done.
  do 2 f_equal.
  change (foldl (λ c raw, update_car c (strip raw))
            (update_car (Car.mk year make (strip model) "" "") (strip start)) body)
    with (foldl (λ c raw, update_car c (strip raw))
            (Car.mk year make (strip model) "" "") (start :: body)).
  by rewrite foldl_update_car.
Qed.

Lemma lqk_blocks cars current_car blocks cs :
  Forall is_block blocks →
  Forall2 (λ block c, block_record block = Some c) blocks cs →
  lqk_flush (foldl lqk_line (cars, current_car) (mjoin blocks))
  = lqk_flush (cars, current_car) ++ cs.
Proof.
  intros Hblocks Hcs. revert cars current_car Hblocks.
  induction Hcs as [|block c blocks cs Hc _ IH]; intros cars cur Hblocks.
  - by rewrite app_nil_r.
  - apply Forall_cons in Hblocks as [Hb Hblocks].
    change (mjoin (block :: blocks)) with (block ++ mjoin blocks).
    rewrite foldl_app, (lqk_block _ _ _ c), IH by done.
    unfold lqk_flush. simpl.
    destruct cur; simpl; by rewrite <-?app_assoc, ?app_nil_r.
Qed.

(** A report of one line, a start line that also holds a date: the record
    has that date although no line follows its start line, which
    contradicts C10 as it is stated. *)
Lemma start_line_sets_date :
  parse_lqk_file "LQK.txt"
    (Some (Ok ["2015 TOYOTA CAMRY available for parts Available: 01/01/2024"]))
  = IO [] (Ok [Car.mk "2015" "TOYOTA" "CAMRY" "" "01/01/2024"]).
Proof. vm_compute. reflexivity. Qed.

(** C10, amended.  Split the report into the lines before the first start
    line and the blocks, each a start line with the lines up to the next
    start line.
    The extractor returns one record per block, and the record of a block
    is [block_record] of that block alone: year, make and model of its
    start line, location and date from the last section line and the last
    date line of the block, the start line included, and the empty string
    when the block has no such line.  Nothing of an earlier block enters. *)
Theorem report_record_from_own_block (input_file : string)
    (pre : list string) (blocks : list (list string)) :
  Forall (λ raw, ¬ starts raw) pre →
  Forall is_block blocks →
  ∃ cs, Forall2 (λ block c, block_record block = Some c) blocks cs
    ∧ parse_lqk_file input_file (Some (Ok (pre ++ mjoin blocks)))
      = IO [] (Ok cs).
Proof.
  intros Hpre Hblocks.
  assert (∃ cs, Forall2 (λ block c, block_record block = Some c) blocks cs)
    as [cs Hcs].
  { clear Hpre. induction Hblocks as [|block blocks Hb _ [cs IH]].
    - by exists [].
    - destruct (is_block_record block Hb) as [c Hc]. exists (c :: cs).
      by constructor. }
  exists cs. split; [done|]. rewrite parse_lqk_file_lines.
  rewrite foldl_app, lqk_outside by done.
  by rewrite (lqk_blocks [] None blocks cs).
Qed.

(** A block without a section line gives an empty location, one without a
    date line an empty date. *)
Lemma block_record_defaults block c :
  block_record block = Some c →
  (Forall (λ raw, section_match (strip raw) = None) block →
   Car.location c = EmptyString)
  ∧ (Forall (λ raw, date_match (strip raw) = None) block →
     Car.available c = EmptyString).
Proof.
  assert (∀ X (f : string → option X) lines,
            Forall (λ raw, f (strip raw) = None) lines → last_match f lines = None)
    as Hnone.
  { intros X f lines. induction 1 as [|raw lines Hraw _ IH]; [done|].
    by rewrite last_match_cons, IH. }
  destruct block as [|start body]; [done|]. unfold block_record.
  destruct (car_match (strip start)) as [[[year make] model]|]; [|done].
  intros [= <-]. simpl. unfold location_of, available_of.
  split; intros H; by rewrite Hnone.
Qed.

(** ** The consolidated listing *)

Lemma foldl_ext {A B} (f g : A → B → A) (a : A) (l : list B) :
  (∀ a x, f a x = g a x) → foldl f a l = foldl g a l.
Proof.
  intros H. revert a. induction l as [|x l IH]; intros a; simpl; [done|].
  by rewrite H, IH.
Qed.

Lemma add_sighting_groups (data : list car) :
  foldl add_sighting [] data
  = (λ k, (k, (Car.available <$> sightings k data,
               Car.location <$> sightings k data)))
    <$> distinct (sighting_key <$> data).
Proof.
  rewrite (foldl_ext _
    (file_under sighting_key ([], [])
       (λ (c : car) (d : list string * list string),
          (d.1 ++ [Car.available c], d.2 ++ [Car.location c])))).
  2:{ intros d c. unfold add_sighting, file_under. by rewrite dict_update_update. }
  rewrite file_under_spec. apply list_fmap_ext. intros i k _.
  unfold group_of, sightings. f_equal.
  generalize (filter (λ a, sighting_key a = k) data). intros group.
  assert (∀ acc : list string * list string,
    foldl (λ v (a : car), (v.1 ++ [Car.available a], v.2 ++ [Car.location a]))
      acc group
    = (acc.1 ++ (Car.available <$> group), acc.2 ++ (Car.location <$> group)))
    as H.
  { induction group as [|c group IH]; intros [ds ls]; csimpl.
    - by rewrite !app_nil_r.
    - rewrite IH. simpl. by rewrite <-!app_assoc. }
  by rewrite H.
Qed.

Lemma unique_loop_spec (values unique : list string) (seen : gset string) :
  (∀ x, x ∈ seen ↔ x ∈ unique) →
  unique_loop values unique seen
  = unique ++ filter (λ v, v ∉ unique) (distinct values).
Proof.
  revert unique seen. induction values as [|v values IH]; intros unique seen Hseen.
  - simpl. by rewrite app_nil_r.
  - simpl. destruct (decide (v ∈ seen)) as [Hv|Hv].
    + rewrite IH by done. f_equal.
      rewrite filter_cons_False by (rewrite <-Hseen; tauto).
      rewrite list_filter_filter. apply list_filter_iff.
      intros x. split; [|tauto]. intros Hx. split; [done|].
      intros ->. apply Hx. by apply Hseen.
    + rewrite IH.
      2:{ intros x. rewrite elem_of_union, elem_of_singleton, elem_of_app,
            list_elem_of_singleton, Hseen. done. }
      rewrite filter_cons_True by (rewrite <-Hseen; tauto).
      rewrite <-app_assoc. simpl. do 2 f_equal.
      rewrite list_filter_filter. apply list_filter_iff.
      intros x. rewrite elem_of_app, list_elem_of_singleton. tauto.
Qed.

Lemma unique_values_distinct (values : list string) :
  unique_values values = distinct values.
Proof.
  unfold unique_values. rewrite unique_loop_spec by set_solver.
  simpl. apply filter_all, Forall_forall. intros x _. apply not_elem_of_nil.
Qed.

Lemma str_app_assoc (a b c : string) : (a +:+ b) +:+ c = a +:+ b +:+ c.
Proof.
  induction a as [|x a IH]; [done|].
  change (String x ((a +:+ b) +:+ c) = String x (a +:+ b +:+ c)). by rewrite IH.
Qed.

Lemma str_app_nil_r (a : string) : a +:+ "" = a.
Proof.
  induction a as [|x a IH]; [done|].
  change (String x (a +:+ "") = String x a). by rewrite IH.
Qed.

Lemma occurs_in_join (sep : string) (l : list string) (i : nat) (x : string) :
  l !! i = Some x → occurs_in x (join sep l).
Proof.
  revert i. induction l as [|y l IH]; intros i Hi; [done|].
  destruct i as [|i]; simpl in Hi.
  - injection Hi as ->. destruct l as [|z l].
    + exists "", "". simpl. by rewrite str_app_nil_r.
    + exists "", (sep +:+ join sep (z :: l)). done.
  - destruct l as [|z l]; [done|].
    destruct (IH i Hi) as (before & after & Heq).
    exists (y +:+ sep +:+ before), after.
    change (join sep (y :: z :: l)) with (y +:+ sep +:+ join sep (z :: l)).
    by rewrite Heq, !str_app_assoc.
Qed.

Lemma enumerate_values_join (unique : list string) :
  enumerate_values unique = join ", " (imap numbered unique).
Proof. by destruct unique as [|v [|v' unique]]. Qed.

Lemma occurs_in_enumerate_values (unique : list string) (i : nat) (v : string) :
  unique !! i = Some v → occurs_in (numbered i v) (enumerate_values unique).
Proof.
  intros Hi. rewrite enumerate_values_join. apply occurs_in_join with i.
  by rewrite list_lookup_imap, Hi.
Qed.

Lemma consolidate_perm (data : list car) :
  consolidate data
  ≡ₚ consolidate_group <$>
       ((λ k, (k, (Car.available <$> sightings k data,
                   Car.location <$> sightings k data)))
        <$> distinct (sighting_key <$> data)).
Proof.
  unfold consolidate. by rewrite !sorted_by_perm, add_sighting_groups.
Qed.

Lemma numbered_label (i : nat) (v : string) : numbered i v = label (S i) v.
Proof. unfold numbered, label. by rewrite Nat.add_1_r. Qed.

Lemma join_numbered_rendering (k : nat) (values : list string) :
  join ", " (imap (λ i, numbered (k + i)) values) = rendering_from (S k) values.
Proof.
  revert k. induction values as [|v values IH]; intros k; [done|].
  rewrite imap_cons, Nat.add_0_r.
  rewrite (imap_ext _ (λ i, numbered (S k + i))).
  2:{ intros i x _. simpl. f_equal. lia. }
  destruct values as [|v' values].
  - simpl. apply numbered_label.
  - change (numbered k v +:+ ", "
            +:+ join ", " (imap (λ i, numbered (S k + i)) (v' :: values))
            = label (S k) v +:+ ", " +:+ rendering_from (S (S k)) (v' :: values)).
    by rewrite IH, numbered_label.
Qed.

Lemma enumerate_values_rendering (values : list string) :
  enumerate_values values = rendering values.
Proof.
  rewrite enumerate_values_join. apply (join_numbered_rendering 0).
Qed.

Lemma occurs_in_label (i : nat) (v hay : string) :
  occurs_in (label i v) hay → occurs_in v hay.
Proof.
  intros (before & after & ->). unfold label.
  exists (before +:+ "(" +:+ pretty i +:+ ") "), after.
  by rewrite !str_app_assoc.
Qed.

(** C6.  For every key (make + " " + model, year) of the input the
    consolidated listing has exactly one entry.  Its count is the number
    of distinct dates of the records with that key, written in decimal
    (the locations do not enter).  Its dates are the rendering of the
    distinct dates of those records and its locations the rendering of
    their distinct locations, each list deduplicated on its own and in
    order of first occurrence.  So every date and every location of those
    records occurs in the rendered string, after its number. *)
Theorem consolidation_keeps_every_value (data : list car) (k : string * string) :
  k ∈ sighting_key <$> data →
  ∃ e, filter (λ e, entry_key e = k) (consolidate data) = [e]
    ∧ Entry.count e
      = pretty (length (distinct (Car.available <$> sightings k data)))
    ∧ Entry.dates e
      = rendering (distinct (Car.available <$> sightings k data))
    ∧ Entry.locations e
      = rendering (distinct (Car.location <$> sightings k data))
    ∧ (∀ d, d ∈ Car.available <$> sightings k data →
         occurs_in d (Entry.dates e)
         ∧ ∃ i, distinct (Car.available <$> sightings k data) !! i = Some d
             ∧ occurs_in (label (S i) d) (Entry.dates e))
    ∧ (∀ l, l ∈ Car.location <$> sightings k data →
         occurs_in l (Entry.locations e)
         ∧ ∃ i, distinct (Car.location <$> sightings k data) !! i = Some l
             ∧ occurs_in (label (S i) l) (Entry.locations e)).
Proof.
  intros Hk. destruct k as [name year].
  set (group k := (k, (Car.available <$> sightings k data,
                       Car.location <$> sightings k data))).
  set (e := consolidate_group (group (name, year))). exists e.
  assert (∀ k', entry_key (consolidate_group (group k')) = k') as Hkey.
  { by intros [name' year']. }
  assert (∀ values v,
            v ∈ values →
            occurs_in v (enumerate_values (distinct values))
            ∧ ∃ i, distinct values !! i = Some v
                ∧ occurs_in (label (S i) v) (enumerate_values (distinct values)))
    as Hkeeps.
  { intros values v Hv. rewrite <-elem_of_distinct in Hv.
    apply list_elem_of_lookup in Hv as [i Hi].
    pose proof (occurs_in_enumerate_values _ _ _ Hi) as Hocc.
    rewrite numbered_label in Hocc.
    split; [by eapply occurs_in_label | by exists i]. }
  split_and!.
  - apply (proj1 (Permutation_singleton_r _ _)).
    rewrite consolidate_perm, <-list_fmap_compose.
    assert (filter (λ y, entry_key y = entry_key e)
              ((consolidate_group ∘ group) <$> distinct (sighting_key <$> data))
            = [e]) as Hone; [|by rewrite <-Hone].
    apply filter_unique.
    + rewrite <-list_fmap_compose.
      rewrite (list_fmap_ext _ id) by (intros; apply Hkey).
      rewrite list_fmap_id. apply NoDup_distinct.
    + apply (list_elem_of_fmap_2 (consolidate_group ∘ group)).
      by apply elem_of_distinct.
  - unfold e, group, consolidate_group. simpl.
    by rewrite !unique_values_distinct.
  - unfold e, group, consolidate_group. simpl.
    by rewrite !unique_values_distinct, enumerate_values_rendering.
  - unfold e, group, consolidate_group. simpl.
    by rewrite !unique_values_distinct, enumerate_values_rendering.
  - intros d Hd. unfold e, group, consolidate_group. simpl.
    rewrite !unique_values_distinct. by apply Hkeeps.
  - intros l Hl. unfold e, group, consolidate_group. simpl.
    rewrite !unique_values_distinct. by apply Hkeeps.
Qed.

Lemma consolidation_keeps_every_value_witness :
  ("Honda Civic", "2020") ∈ sighting_key <$> lot
  ∧ ∃ e, filter (λ e, entry_key e = ("Honda Civic", "2020")) (consolidate lot) = [e]
      ∧ Entry.count e = "1"
      ∧ Entry.dates e = "(1) 01/01/2020"
      ∧ Entry.locations e = "(1) L1, (2) L2"
      ∧ occurs_in "01/01/2020" (Entry.dates e)
      ∧ occurs_in "L1" (Entry.locations e)
      ∧ occurs_in "L2" (Entry.locations e).
Proof.
  assert (("Honda Civic", "2020") ∈ sighting_key <$> lot) as Hk.
  { right. left. }
  split; [exact Hk|].
  destruct (consolidation_keeps_every_value lot _ Hk)
    as (e & He & Hcount & Hdates & Hlocations & Hd & Hl).
  exists e. split_and!.
  - exact He.
  - rewrite Hcount. vm_compute. reflexivity.
  - rewrite Hdates. vm_compute. reflexivity.
  - rewrite Hlocations. vm_compute. reflexivity.
  - apply Hd. vm_compute. left.
  - apply Hl. vm_compute. left.
  - apply Hl. vm_compute. right. left.
Defined.

Example consolidate_lot :
  consolidate lot
  = [Entry.mk "FORD F150" "1999" "1" "(1) " "(1) ";
     Entry.mk "Honda Civic" "2020" "1" "(1) 01/01/2020" "(1) L1, (2) L2";
     Entry.mk "TOYOTA CAMRY" "2015" "2" "(1) 01/10/2024, (2) 03/15/2024"
       "(1) A 5 3, (2) B 2 7"].
Proof. vm_compute. reflexivity. Qed.

(** Every report splits into lines before the first start line and
    blocks, so C10 speaks of every report. *)
Lemma report_splits (lines : list string) :
  ∃ pre blocks, lines = pre ++ mjoin blocks
    ∧ Forall (λ raw, ¬ starts raw) pre ∧ Forall is_block blocks.
Proof.
  induction lines as [|raw lines (pre & blocks & -> & Hpre & Hblocks)].
  - by exists [], [].
  - destruct (decide (starts raw)) as [Hs|Hs].
    + exists [], ((raw :: pre) :: blocks). split_and!; [done | constructor|].
      by constructor.
    + exists (raw :: pre), blocks. split_and!; [done | by constructor | done].
Qed.

Lemma report_record_from_own_block_witness :
  ∃ cs,
    Forall2 (λ block c, block_record block = Some c)
      [take 3 (drop 1 report); take 4 (drop 4 report); drop 8 report] cs
    ∧ parse_lqk_file "LQK.txt"
        (Some (Ok (take 1 report
                   ++ mjoin [take 3 (drop 1 report); take 4 (drop 4 report);
                             drop 8 report])))
      = IO [] (Ok cs).
Proof.
  apply report_record_from_own_block.
  - repeat constructor. vm_compute. intros [x Hx]. discriminate Hx.
  - repeat constructor;
      first [ eexists; vm_compute; reflexivity
            | vm_compute; intros [x Hx]; discriminate Hx ].
Defined.

(** ** The entry point *)

Lemma parse_csv_file_prints csv_file file :
  prints_only (out (parse_csv_file csv_file file))
  ∧ is_Ok (res (parse_csv_file csv_file file)).
Proof.
  unfold parse_csv_file, prints_only. destruct file as [reader|].
  - destruct (read_rows reader []) as [cars [e|]]; simpl;
      split; repeat constructor; by eexists.
  - split; repeat constructor; by eexists.
Qed.

Lemma parse_lqk_file_prints input_file file :
  prints_only (out (parse_lqk_file input_file file)).
Proof.
  unfold parse_lqk_file, prints_only. destruct file as [[lines|e]|]; simpl;
    repeat constructor; by eexists.
Qed.

Lemma gathered_read (w : world) (cars_from_txt : list car) :
  res (parse_lqk_file lqk_file (lqk_txt w)) = Ok cars_from_txt →
  gathered w
  = cars_from_txt
    ++ mjoin ((λ f, returned (parse_csv_file f (csv w f))) <$> csv_files).
Proof. intros Htxt. unfold gathered. by rewrite Htxt. Qed.

Lemma gathered_unread (w : world) (e : exn) :
  res (parse_lqk_file lqk_file (lqk_txt w)) = Raise e → gathered w = [].
Proof. intros Htxt. unfold gathered. by rewrite Htxt. Qed.

Lemma read_csv_nothing (w : world) (csv_file : string) :
  res (parse_csv_file csv_file (csv w csv_file)) = Ok [] →
  ∃ events, read_csv w [] csv_file = IO events (Ok []) ∧ prints_only events.
Proof.
  intros Hnone. unfold read_csv.
  destruct (parse_csv_file_prints csv_file (csv w csv_file)) as [Hout _].
  destruct (parse_csv_file csv_file (csv w csv_file)) as [events r].
  simpl in *. subst r. destruct (csv w csv_file).
  - exists (events ++ []). split; [done|]. by rewrite app_nil_r.
  - exists []. split; [done | constructor].
Qed.

(** C8.  When the report and every tabular file yield no record, the run
    prints the no-data message, writes no file and returns 1, which is the
    exit status of the process. *)
Theorem main_no_data (w : world) :
  res (parse_lqk_file lqk_file (lqk_txt w)) = Ok [] →
  Forall (λ csv_file, res (parse_csv_file csv_file (csv w csv_file)) = Ok [])
    csv_files →
  res (main w) = Ok 1%Z
  ∧ exit_status (main w) = 1%Z
  ∧ Print MNoData ∈ out (main w)
  ∧ prints_only (out (main w)).
Proof.
  intros Htxt Hcsv.
  pose proof (parse_lqk_file_prints lqk_file (lqk_txt w)) as Hout1.
  apply Forall_cons in Hcsv as [Hcsv1 Hcsv].
  apply Forall_cons in Hcsv as [Hcsv2 _].
  destruct (read_csv_nothing w _ Hcsv1) as (ev1 & Hev1 & Hp1).
  destruct (read_csv_nothing w _ Hcsv2) as (ev2 & Hev2 & Hp2).
  assert (main w
          = IO ([Print MBanner; Print (MStep 1 lqk_file)]
                ++ out (parse_lqk_file lqk_file (lqk_txt w))
                ++ [Print (MStep 2 "CSV")] ++ ev1 ++ ev2 ++ [Print MNoData])
               (Ok 1%Z)) as ->.
  { unfold main. destruct (parse_lqk_file lqk_file (lqk_txt w)) as [ev0 r0].
    simpl in Htxt. subst r0. unfold csv_files, for_each.
    unfold mbind, io_bind. simpl. rewrite Hev1. simpl. rewrite Hev2. simpl.
    by rewrite !app_nil_r, <-!app_assoc. }
  unfold exit_status, prints_only in *. simpl. split_and!; [done..| |].
  - do 2 right. apply elem_of_app. right. right.
    apply elem_of_app. right. apply elem_of_app. right. left.
  - repeat first [ apply Forall_cons; split; [by eexists|]
                 | apply Forall_app; split; [done|] ].
    constructor.
Qed.

Lemma main_no_data_witness :
  res (main bare_world) = Ok 1%Z
  ∧ exit_status (main bare_world) = 1%Z
  ∧ Print MNoData ∈ out (main bare_world)
  ∧ prints_only (out (main bare_world)).
Proof.
  apply main_no_data.
  - vm_compute. reflexivity.
  - repeat constructor; vm_compute; reflexivity.
Defined.

Example main_stocked :
  main stocked_world
  = IO [Print MBanner; Print (MStep 1 "LQK.txt"); Print (MFound 3 "LQK.txt");
        Print (MStep 2 "CSV"); Print (MFound 2 "LQK.csv"); Print (MTotal 5);
        Print (MStep 3 "Processing"); Print (MRemoved 2); Print (MFinal 3);
        Print (MDateRange "01/01/2020" "03/15/2024"); Print MNewestHeader;
        Print (MNewest 1 camry_new "B 2 7"); Print (MNewest 2 civic_l1 "L1");
        Print (MNewest 3 truck ""); Print (MStep 4 "Saving");
        WriteCars "../site/cars.json" [camry_new; civic_l1; truck];
        Print (MSaved 3 "../site/cars.json");
        WriteConsolidated "LQK.json"
          [Entry.mk "FORD F150" "1999" "1" "(1) " "(1) ";
           Entry.mk "Honda Civic" "2020" "1" "(1) 01/01/2020" "(1) L1";
           Entry.mk "TOYOTA CAMRY" "2015" "1" "(1) 03/15/2024" "(1) B 2 7"];
        Print (MSaved 3 "LQK.json"); Print MSuccess; Print MPrompt;
        Print MServerHelp]
       (Ok 0%Z).
Proof. vm_compute. reflexivity. Qed.

(** *** What a run with data writes *)

Lemma elem_of_out_bind_l {A B} (m : io A) (f : A → io B) (ev : event) :
  ev ∈ out m → ev ∈ out (m ≫= f).
Proof.
  intros Hev. unfold mbind, io_bind. destruct (res m); simpl; [|done].
  apply elem_of_app. by left.
Qed.

Lemma elem_of_out_bind_r {A B} (m : io A) (f : A → io B) (a : A) (ev : event) :
  res m = Ok a → ev ∈ out (f a) → ev ∈ out (m ≫= f).
Proof.
  intros Hm Hev. unfold mbind, io_bind. rewrite Hm. simpl.
  apply elem_of_app. by right.
Qed.

Lemma read_csv_res (w : world) (all_cars : list car) (csv_file : string) :
  res (read_csv w all_cars csv_file)
  = Ok (all_cars ++ returned (parse_csv_file csv_file (csv w csv_file))).
Proof.
  unfold read_csv, returned.
  destruct (parse_csv_file_prints csv_file (csv w csv_file)) as [_ [cars Hcars]].
  destruct (csv w csv_file) as [reader|] eqn:Hfile.
  - rewrite res_bind, Hcars. simpl.
    destruct cars; simpl; by rewrite ?app_nil_r.
  - simpl. by rewrite app_nil_r.
Qed.

Lemma for_each_read_csv_res (w : world) (files : list string) (all_cars : list car) :
  res (for_each (read_csv w) files all_cars)
  = Ok (all_cars
        ++ mjoin ((λ f, returned (parse_csv_file f (csv w f))) <$> files)).
Proof.
  revert all_cars. induction files as [|f files IH]; intros all_cars; csimpl.
  - by rewrite app_nil_r.
  - rewrite res_bind, read_csv_res. simpl. by rewrite IH, <-app_assoc.
Qed.

Lemma show_summary_res (cars_final : list car) :
  Forall (λ c, is_Ok (date_key c)) cars_final →
  res (show_summary cars_final) = Ok ().
Proof.
  intros Hall. unfold show_summary. destruct cars_final as [|c cars]; [done|].
  set (dates := filter (λ d, d ≠ "") (Car.available <$> c :: cars)).
  assert (Forall (λ d, is_Ok (parse_date d)) dates) as Hdates.
  { apply Forall_forall. intros d [_ Hd]%list_elem_of_filter.
    apply list_elem_of_fmap in Hd as (x & -> & Hx).
    by apply (proj1 (Forall_forall _ _) Hall). }
  apply (sorted_is_Ok rank_ltb parse_date dates true) in Hdates as [ds Hds].
  rewrite res_bind. destruct dates as [|d dates']; simpl; [done|].
  rewrite res_bind. simpl. by rewrite Hds.
Qed.

(** With at least one record gathered, every date rankable and both paths
    writable, the run writes the converted list as the flat listing and
    its consolidation as the consolidated listing. *)
Lemma main_writes_listings (w : world) (cars_final : list car) :
  gathered w ≠ [] →
  res (convert_to_site_format (gathered w)) = Ok cars_final →
  write_error w site_json = None →
  write_error w lqk_json = None →
  WriteCars site_json cars_final ∈ out (main w)
  ∧ WriteConsolidated lqk_json (consolidate cars_final) ∈ out (main w).
Proof.
  intros Hdata Hconv Hsite Hlqk.
  assert (Forall (λ c, is_Ok (date_key c)) cars_final) as Hdates.
  { rewrite convert_to_site_format_res in Hconv.
    apply result_bind_Ok in Hconv as (unique & _ & Hsorted).
    rewrite (sorted_perm _ _ _ _ _ Hsorted).
    apply (sorted_is_Ok rank_ltb date_key unique true). by eexists. }
  assert (∀ ev, ev ∈ [WriteCars site_json cars_final;
                      WriteConsolidated lqk_json (consolidate cars_final)] →
            ev ∈ out (main w)) as Hboth.
  2:{ split; apply Hboth; [left | right; left]. }
  intros ev Hev. unfold main.
  eapply elem_of_out_bind_r; [done|]. cbn zeta.
  eapply elem_of_out_bind_r; [done|].
  destruct (res (parse_lqk_file lqk_file (lqk_txt w))) as [cars_txt|e] eqn:Htxt.
  2:{ by rewrite (gathered_unread _ _ Htxt) in Hdata. }
  eapply elem_of_out_bind_r; [exact Htxt|].
  eapply (elem_of_out_bind_r _ _ cars_txt); [by destruct cars_txt|].
  eapply elem_of_out_bind_r; [done|].
  eapply elem_of_out_bind_r; [apply for_each_read_csv_res|].
  rewrite <-(gathered_read _ _ Htxt).
  destruct (gathered w) as [|c0 all_cars] eqn:Hall; [done|].
  eapply elem_of_out_bind_r; [done|].
  eapply elem_of_out_bind_r; [done|].
  eapply elem_of_out_bind_r; [exact Hconv|].
  eapply elem_of_out_bind_r; [done|].
  eapply elem_of_out_bind_r; [by apply show_summary_res|].
  eapply elem_of_out_bind_r; [done|].
  rewrite Hsite, Hlqk.
  apply elem_of_cons in Hev as [->|Hev].
  { apply elem_of_out_bind_l. left. }
  apply list_elem_of_singleton in Hev as ->.
  eapply elem_of_out_bind_r; [done|].
  eapply elem_of_out_bind_r; [done|].
  apply elem_of_out_bind_l. left.
Qed.

(** * Further properties *)

(** ** The date ranking function *)

(** X1.  A date made of three non-empty strings of digits joined by
    slashes is ranked by the numbers they denote: (year, month, day). *)
Theorem parse_date_ranks_year_month_day (m d y : string) :
  numeral m → numeral d → numeral y →
  parse_date (m +:+ "/" +:+ d +:+ "/" +:+ y)
  = Ok (decimal_value y, decimal_value m, decimal_value d).
Proof. apply parse_date_well_formed. Qed.

Lemma parse_date_ranks_year_month_day_witness :
  parse_date ("3" +:+ "/" +:+ "15" +:+ "/" +:+ "2024") = Ok (2024, 3, 15)%Z.
Proof.
  apply (parse_date_ranks_year_month_day "3" "15" "2024");
    (split; [reflexivity | unfold max_str_digits; simpl; lia]).
Defined.

Lemma numeral_zero_padded (s : string) :
  numeral s → String.length s < max_str_digits →
  numeral (String "0" s) ∧ decimal_value (String "0" s) = decimal_value s.
Proof.
  intros [Hall [Hpos Hmax]] Hlt. split; [|done].
  split; [done|]. simpl. lia.
Qed.

(** X2.  Leading zeros do not change the rank: a month or a day written
    with a zero in front ranks like the one without. *)
Theorem parse_date_leading_zeros (m d y : string) :
  numeral m → numeral d → numeral y →
  String.length m < max_str_digits → String.length d < max_str_digits →
  parse_date (String "0" m +:+ "/" +:+ String "0" d +:+ "/" +:+ y)
  = parse_date (m +:+ "/" +:+ d +:+ "/" +:+ y).
Proof.
  intros Hm Hd Hy Hlm Hld.
  destruct (numeral_zero_padded m Hm Hlm) as [Hm0 Hvm].
  destruct (numeral_zero_padded d Hd Hld) as [Hd0 Hvd].
  rewrite !parse_date_well_formed by done. by rewrite Hvm, Hvd.
Qed.

Lemma parse_date_leading_zeros_witness :
  parse_date (String "0" "3" +:+ "/" +:+ String "0" "5" +:+ "/" +:+ "2024")
  = parse_date ("3" +:+ "/" +:+ "5" +:+ "/" +:+ "2024").
Proof.
  apply parse_date_leading_zeros;
    first [ split; [reflexivity | unfold max_str_digits; simpl; lia]
          | unfold max_str_digits; simpl; lia ].
Defined.

Lemma parse_date_only_ValueError (s : string) (e : exn) :
  parse_date s = Raise e → e = ValueError.
Proof.
  unfold parse_date. case_decide; [|done].
  destruct (split "/" s) as [|p1 [|p2 [|p3 [|p4 parts]]]]; try done.
  destruct (int p1) as [v1|e1] eqn:H1; simpl;
    [|intros [= <-]; by eapply int_raises].
  destruct (int p2) as [v2|e2] eqn:H2; simpl;
    [|intros [= <-]; by eapply int_raises].
  destruct (int p3) as [v3|e3] eqn:H3; simpl;
    [done | intros [= <-]; by eapply int_raises].
Qed.

(** X3.  [parse_date] raises exactly on the strings that split into three
    parts of which one is not an integer literal, and what it raises is
    always [ValueError]. *)
Theorem parse_date_raises_exactly (s : string) :
  (is_Ok (parse_date s)
   ↔ length (split "/" s) ≠ 3 ∨ Forall (λ p, is_Ok (int p)) (split "/" s))
  ∧ ∀ e, parse_date s = Raise e → e = ValueError.
Proof.
  destruct (decide (length (split "/" s) = 3)) as [Hlen|Hlen].
  2:{ rewrite parse_date_other_part_count by done.
      split; [|done]. split; [by left | by eexists]. }
  destruct (split "/" s) as [|p1 [|p2 [|p3 [|p4 parts]]]] eqn:Hs; try done.
  assert (parse_date s = (m ← int p1; d ← int p2; y ← int p3; mret (y, m, d)))
    as ->.
  { unfold parse_date. by rewrite Hs. }
  assert (∀ e, Forall (λ p, is_Ok (int p)) [p1; p2; p3] →
            (int p1 = Raise e ∨ int p2 = Raise e ∨ int p3 = Raise e) → False)
    as Hbad.
  { intros e Hall Hr. repeat (apply Forall_cons in Hall as [[? ?] Hall]).
    destruct Hr as [Hr|[Hr|Hr]]; congruence. }
  destruct (int p1) as [v1|e1] eqn:H1; simpl.
  2:{ split.
      - split; [by intros [? [=]] | intros [?|Hall]; [done|]].
        destruct (Hbad e1 Hall). by left.
      - intros e [= <-]. by eapply int_raises. }
  destruct (int p2) as [v2|e2] eqn:H2; simpl.
  2:{ split.
      - split; [by intros [? [=]] | intros [?|Hall]; [done|]].
        destruct (Hbad e2 Hall). right. by left.
      - intros e [= <-]. by eapply int_raises. }
  destruct (int p3) as [v3|e3] eqn:H3; simpl.
  2:{ split.
      - split; [by intros [? [=]] | intros [?|Hall]; [done|]].
        destruct (Hbad e3 Hall). right. by right.
      - intros e [= <-]. by eapply int_raises. }
  split; [|done]. split; [|by eexists]. intros _. right.
  repeat constructor; by eexists.
Qed.

(** ** The deduplicator and the conversion *)

Lemma io_eta {A} (m : io A) : m = IO (out m) (res m).
Proof. by destruct m. Qed.

Lemma mapM_Raise {A B} (f : A → result B) (l : list A) (e : exn) :
  mapM f l = Raise e → ∃ x, x ∈ l ∧ f x = Raise e.
Proof.
  induction l as [|x l IH]; simpl; [done|].
  destruct (f x) as [y|e'] eqn:Hx; simpl.
  - destruct (mapM f l) as [k|e'] eqn:Hl; simpl; [done|].
    intros [= ->]. destruct (IH eq_refl) as (x' & Hin & Hx').
    exists x'. split; [by right | done].
  - intros [= ->]. exists x. split; [left | done].
Qed.

Lemma sorted_Raise {K A} (lt : K → K → bool) (key : A → result K)
    (l : list A) (reverse : bool) (e : exn) :
  sorted lt l key reverse = Raise e → ∃ x, x ∈ l ∧ key x = Raise e.
Proof.
  unfold sorted.
  destruct (mapM _ l) as [keyed|e'] eqn:Hm; simpl; [done|]. intros [= ->].
  apply mapM_Raise in Hm as (x & Hin & Hx). exists x. split; [done|].
  destruct (key x) as [k|e']; simpl in Hx; [done | by injection Hx as ->].
Qed.

Lemma kept_only_ValueError (group : list car) (e : exn) :
  group ≠ [] → kept group = Raise e → e = ValueError.
Proof.
  intros Hne. destruct (decide (length group = 1)) as [Hlen|Hlen].
  - destruct group as [|c [|c' group]]; try done.
  - rewrite kept_many by done. unfold newest.
    destruct (sorted rank_ltb group date_key true) as [gs|e'] eqn:Hs; simpl.
    + destruct gs as [|c gs]; [|done].
      by apply sorted_perm, Permutation_nil in Hs.
    + intros [= ->]. apply sorted_Raise in Hs as (x & _ & Hx).
      by eapply parse_date_only_ValueError.
Qed.

Lemma same_key_nonempty (cars : list car) (k : string * string * string) :
  k ∈ distinct (car_key <$> cars) → same_key k cars ≠ [].
Proof.
  rewrite elem_of_distinct. intros (c & -> & Hc)%list_elem_of_fmap Hnil.
  assert (c ∈ same_key (car_key c) cars) as Hin by by apply same_key_elem.
  rewrite Hnil in Hin. by apply elem_of_nil in Hin.
Qed.

Lemma remove_duplicates_only_ValueError (cars : list car) (e : exn) :
  res (remove_duplicates cars) = Raise e → e = ValueError.
Proof.
  rewrite remove_duplicates_res. intros (k & Hk & He)%mapM_Raise.
  eapply kept_only_ValueError; [|exact He]. by apply same_key_nonempty.
Qed.

(** X4.  The deduplicator raises exactly when a record that shares its
    identity key with another record has a date that cannot be ranked, and
    what it raises is always [ValueError] (never [IndexError]: no group is
    empty). *)
Theorem remove_duplicates_raises_exactly (cars : list car) :
  (is_Ok (res (remove_duplicates cars)) ↔ comparable cars)
  ∧ ∀ e, res (remove_duplicates cars) = Raise e → e = ValueError.
Proof.
  split; [apply remove_duplicates_returns|].
  apply remove_duplicates_only_ValueError.
Qed.

Lemma group_sizes {A K} `{EqDecision K} (key : A → K) (l : list A) (ks : list K) :
  NoDup ks → (∀ x, x ∈ l → key x ∈ ks) →
  sum_list ((λ k, length (filter (λ x, key x = k) l)) <$> ks) = length l.
Proof.
  intros Hnd. induction l as [|a l IH]; intros Hin.
  - induction ks as [|k ks IHk]; csimpl; [done|].
    apply NoDup_cons in Hnd as [_ Hnd]. apply IHk; [done|].
    intros x Hx. by apply elem_of_nil in Hx.
  - assert (sum_list ((λ k, length (filter (λ x, key x = k) (a :: l))) <$> ks)
            = sum_list ((λ k, if decide (key a = k) then 1 else 0) <$> ks)
              + sum_list ((λ k, length (filter (λ x, key x = k) l)) <$> ks))
      as ->.
    { clear. induction ks as [|k ks IHk]; csimpl; [done|].
      rewrite IHk, filter_cons. destruct (decide (key a = k)); simpl; lia. }
    rewrite IH by (intros x Hx; apply Hin; by right).
    assert (key a ∈ ks) as Ha by (apply Hin; left).
    assert (sum_list ((λ k, if decide (key a = k) then 1 else 0) <$> ks) = 1)
      as ->; [|done].
    clear -Hnd Ha. induction Hnd as [|k ks Hk Hnd IHk]; [by inversion Ha|].
    csimpl. apply elem_of_cons in Ha as [->|Ha].
    + rewrite decide_True by done.
      assert (sum_list ((λ k0, if decide (k = k0) then 1 else 0) <$> ks) = 0)
        as ->; [|done].
      clear -Hk. induction ks as [|k' ks IH]; csimpl; [done|].
      apply not_elem_of_cons in Hk as [Hne Hk].
      by rewrite decide_False, IH by done.
    + rewrite decide_False; [by rewrite IHk|].
      intros Heq. apply Hk. by rewrite <-Heq.
Qed.

Lemma sum_list_pred {K} (f : K → nat) (ks : list K) :
  Forall (λ k, 1 ≤ f k) ks →
  sum_list ((λ k, f k - 1) <$> ks) = sum_list (f <$> ks) - length ks.
Proof.
  induction 1 as [|k ks Hk Hks IH]; csimpl; [done|].
  assert (length ks ≤ sum_list (f <$> ks)).
  { clear -Hks. induction Hks; csimpl; lia. }
  lia.
Qed.

Lemma removed_count (cars unique : list car) :
  res (remove_duplicates cars) = Ok unique →
  out (remove_duplicates cars)
  = [Print (MRemoved (length cars - length unique))].
Proof.
  intros Hres.
  pose proof (remove_duplicates_keys _ _ Hres) as Hkeys.
  rewrite remove_duplicates_res in Hres.
  unfold remove_duplicates.
  rewrite keep_newest_spec, group_cars_spec, mapM_fmap.
  assert (mapM ((λ it : string * string * string * list car, kept it.2)
                ∘ (λ k, (k, same_key k cars))) (distinct (car_key <$> cars))
          = Ok unique) as -> by exact Hres.
  unfold mbind, io_bind, lift. simpl.
  do 3 f_equal. rewrite <-list_fmap_compose. unfold compose. simpl.
  rewrite (sum_list_pred (λ k, length (same_key k cars))).
  2:{ apply Forall_forall. intros k Hk%same_key_nonempty.
      destruct (same_key k cars); [done | simpl; lia]. }
  unfold same_key. rewrite group_sizes.
  - by rewrite <-Hkeys, length_fmap.
  - apply NoDup_distinct.
  - intros c Hc. apply elem_of_distinct. by apply list_elem_of_fmap_2.
Qed.

(** X5.  When the deduplicator returns, it has printed one message, and
    the count in it is the number of input records minus the number of
    records returned. *)
Theorem remove_duplicates_reports_count (cars unique : list car) :
  res (remove_duplicates cars) = Ok unique →
  out (remove_duplicates cars)
  = [Print (MRemoved (length cars - length unique))]
  ∧ length unique ≤ length cars.
Proof.
  intros Hres. split; [by apply removed_count|].
  apply remove_duplicates_keys in Hres.
  rewrite <-(length_fmap car_key unique), Hres, <-(length_fmap car_key cars).
  apply length_distinct.
Qed.

Lemma remove_duplicates_reports_count_witness :
  out (remove_duplicates lot) = [Print (MRemoved (5 - 3))]
  ∧ 3 ≤ 5.
Proof.
  apply (remove_duplicates_reports_count lot [camry_new; civic_l1; truck]).
  vm_compute. reflexivity.
Defined.

(** X6.  On records with pairwise distinct identity keys the deduplicator
    returns its input as it is and reports no duplicate, whatever the
    dates are: nothing is sorted, so nothing is parsed. *)
Theorem remove_duplicates_distinct_keys (cars : list car) :
  NoDup (car_key <$> cars) →
  remove_duplicates cars = IO [Print (MRemoved 0)] (Ok cars).
Proof.
  intros Hnd.
  assert (res (remove_duplicates cars) = Ok cars) as Hres.
  { apply remove_duplicates_Ok. rewrite distinct_NoDup by done.
    apply Forall2_fmap_l, Forall_Forall2_diag, Forall_forall.
    intros c Hc. simpl. by rewrite same_key_unique. }
  rewrite (io_eta (remove_duplicates cars)), Hres, (removed_count cars cars Hres).
  by rewrite Nat.sub_diag.
Qed.

Lemma remove_duplicates_distinct_keys_witness :
  remove_duplicates [camry_old; Car.mk "2020" "Honda" "Civic" "L1" "soon"]
  = IO [Print (MRemoved 0)]
       (Ok [camry_old; Car.mk "2020" "Honda" "Civic" "L1" "soon"]).
Proof.
  apply remove_duplicates_distinct_keys.
  apply NoDup_cons. split; [|apply NoDup_singleton].
  rewrite list_elem_of_singleton. discriminate.
Defined.

(** X7.  The conversion raises exactly when some input record has a date
    that cannot be ranked (in a group of several the deduplicator parses
    it, alone in its group the final sort does), and what it raises is
    always [ValueError]. *)
Theorem convert_to_site_format_raises_exactly (cars : list car) :
  (is_Ok (res (convert_to_site_format cars))
   ↔ Forall (λ c, is_Ok (date_key c)) cars)
  ∧ ∀ e, res (convert_to_site_format cars) = Raise e → e = ValueError.
Proof.
  split; [apply convert_to_site_format_returns|].
  intros e. rewrite convert_to_site_format_res.
  destruct (res (remove_duplicates cars)) as [unique|e'] eqn:Hu; simpl.
  - intros (x & _ & Hx)%sorted_Raise. by eapply parse_date_only_ValueError.
  - intros [= ->]. by eapply remove_duplicates_only_ValueError.
Qed.

Lemma sorted_again {A} (key : A → result rank) (l sorted_l : list A) :
  sorted rank_ltb l key true = Ok sorted_l →
  sorted rank_ltb sorted_l key true = Ok sorted_l.
Proof.
  intros (keyed & Hkeys & <- & ->)%sorted_Ok. apply sorted_Ok.
  exists (sort_stable rank_ltb true keyed). split_and!.
  - by rewrite sort_stable_perm.
  - done.
  - f_equal. apply sort_newest_first_unique; [|done].
    apply sort_newest_first_sorted.
Qed.

(** X8.  The conversion is idempotent: converting a list it has returned
    returns that list, in the same order. *)
Theorem convert_to_site_format_idempotent (cars cars_sorted : list car) :
  res (convert_to_site_format cars) = Ok cars_sorted →
  res (convert_to_site_format cars_sorted) = Ok cars_sorted.
Proof.
  rewrite !convert_to_site_format_res.
  intros (unique & Hu & Hsorted)%result_bind_Ok.
  assert (NoDup (car_key <$> cars_sorted)) as Hnd.
  { rewrite (sorted_perm _ _ _ _ _ Hsorted), (remove_duplicates_keys _ _ Hu).
    apply NoDup_distinct. }
  assert (res (remove_duplicates cars_sorted) = Ok cars_sorted) as ->.
  { apply remove_duplicates_Ok. rewrite distinct_NoDup by done.
    apply Forall2_fmap_l, Forall_Forall2_diag, Forall_forall.
    intros c Hc. simpl. by rewrite same_key_unique. }
  simpl. by eapply sorted_again.
Qed.

Lemma convert_to_site_format_idempotent_witness :
  res (convert_to_site_format lot) = Ok [camry_new; civic_l1; truck]
  ∧ res (convert_to_site_format [camry_new; civic_l1; truck])
    = Ok [camry_new; civic_l1; truck].
Proof.
  assert (res (convert_to_site_format lot) = Ok [camry_new; civic_l1; truck])
    as H by (vm_compute; reflexivity).
  split; [exact H | exact (convert_to_site_format_idempotent lot _ H)].
Defined.

(** ** The tabular extractor *)

Lemma not_blank_spec (c : ascii) : not_blank c = true ↔ c ≠ " "%char.
Proof.
  destruct c as [[] [] [] [] [] [] [] []]; vm_compute; split; congruence.
Qed.

Lemma split1_blank (s : string) :
  (blank_free s ∧ split1 " " s = [s])
  ∨ ∃ a b, split1 " " s = [a; b] ∧ s = a +:+ " " +:+ b ∧ blank_free a.
Proof.
  unfold blank_free. induction s as [|c s IH]; simpl; [by left|].
  destruct (decide (c = " "%char)) as [->|Hc].
  - right. by exists "", s.
  - apply not_blank_spec in Hc. rewrite Hc. simpl.
    destruct IH as [[Hs ->]|(a & b & -> & -> & Ha)].
    + by left.
    + right. exists (String c a), b. split_and!; [done..|].
      simpl. by rewrite Hc.
Qed.

(** X9.  The tabular extractor cuts the stripped car name at its first
    space: the make has no space, and make, a space and model give the
    name back; a name without a space is the make, with an empty model. *)
Theorem row_to_car_name (row : gmap string cell) (c : car) (name : string) :
  row_to_car row = Ok c →
  get_strip row "car" = Ok name →
  blank_free (Car.make c)
  ∧ ((blank_free name ∧ Car.make c = name ∧ Car.model c = EmptyString)
     ∨ Car.make c +:+ " " +:+ Car.model c = name).
Proof.
  unfold row_to_car. intros Hc Hname. rewrite Hname in Hc. simpl in Hc.
  apply result_bind_Ok in Hc as (year & _ & Hc).
  apply result_bind_Ok in Hc as (location & _ & Hc).
  apply result_bind_Ok in Hc as (available & _ & [= <-]). simpl.
  destruct (split1_blank name) as [[Hfree ->]|(a & b & -> & -> & Ha)].
  - split; [done|]. by left.
  - split; [done|]. by right.
Qed.

Lemma row_to_car_name_witness :
  blank_free "TOYOTA"
  ∧ ((blank_free "TOYOTA CAMRY LE" ∧ "TOYOTA" = "TOYOTA CAMRY LE"
      ∧ "CAMRY LE" = EmptyString)
     ∨ "TOYOTA" +:+ " " +:+ "CAMRY LE" = "TOYOTA CAMRY LE").
Proof.
  apply (row_to_car_name (row_of " TOYOTA CAMRY LE " "2015" "B 2 7" "03/15/2024")
           (Car.mk "2015" "TOYOTA" "CAMRY LE" "B 2 7" "03/15/2024"));
    vm_compute; reflexivity.
Defined.

Lemma get_strip_is_Ok (row : gmap string cell) (column : string) :
  is_Ok (get_strip row column) ↔ row !! column ≠ Some None.
Proof.
  unfold get_strip, cell in *. destruct (row !! column) as [[s|]|]; simpl.
  - split; [by intros _ [=] | by eexists].
  - split; [by intros [? [=]] | done].
  - split; [by intros _ [=] | by eexists].
Qed.

Lemma get_strip_missing (row : gmap string cell) (column s : string) :
  get_strip row column = Ok s → row !! column = None → s = EmptyString.
Proof.
  unfold get_strip, cell in *. intros Hs Hnone. rewrite Hnone in Hs.
  by injection Hs.
Qed.

Lemma get_strip_raises (row : gmap string cell) (column : string) (e : exn) :
  get_strip row column = Raise e → e = AttributeError.
Proof.
  unfold get_strip. destruct (default _ _); [done | by intros [= <-]].
Qed.

(** X10.  A row is converted exactly when none of the four columns read
    holds [None]; otherwise the conversion raises [AttributeError].  A
    column the row lacks altogether counts as the empty string. *)
Theorem row_to_car_raises_exactly (row : gmap string cell) :
  (is_Ok (row_to_car row) ↔ Forall (λ col, row !! col ≠ Some None) columns)
  ∧ (∀ e, row_to_car row = Raise e → e = AttributeError)
  ∧ ∀ c, row_to_car row = Ok c →
      (row !! "year" = None → Car.year c = EmptyString)
      ∧ (row !! "location" = None → Car.location c = EmptyString)
      ∧ (row !! "date" = None → Car.available c = EmptyString).
Proof.
  unfold row_to_car, columns. rewrite !Forall_cons. cbv beta.
  rewrite <-!get_strip_is_Ok.
  destruct (get_strip row "car") as [car_name|e1] eqn:H1; simpl.
  2:{ split_and!; [|intros e [= <-]; by eapply get_strip_raises | done].
      split; [by intros [? [=]] | by intros ([? [=]] & _)]. }
  destruct (get_strip row "year") as [year|e2] eqn:H2; simpl.
  2:{ split_and!; [|intros e [= <-]; by eapply get_strip_raises | done].
      split; [by intros [? [=]] | by intros (_ & [? [=]] & _)]. }
  destruct (get_strip row "location") as [location|e3] eqn:H3; simpl.
  2:{ split_and!; [|intros e [= <-]; by eapply get_strip_raises | done].
      split; [by intros [? [=]] | by intros (_ & _ & [? [=]] & _)]. }
  destruct (get_strip row "date") as [available|e4] eqn:H4; simpl.
  2:{ split_and!; [|intros e [= <-]; by eapply get_strip_raises | done].
      split; [by intros [? [=]] | by intros (_ & _ & _ & [? [=]] & _)]. }
  split_and!; [|done|].
  - split; [|by eexists]. intros _. split_and!; (by eexists) || constructor.
  - intros c [= <-]. simpl. split_and!; by apply get_strip_missing.
Qed.

(** ** The report-format extractor *)

Lemma lqk_flush_step (st : list car * option car) (raw : string) :
  length (lqk_flush (lqk_line st raw))
  = length (lqk_flush st) + (if decide (starts raw) then 1 else 0).
Proof.
  destruct st as [cars cur]. destruct (decide (starts raw)) as [Hs|Hs].
  - destruct Hs as [[[year make] model] Hm].
    rewrite (lqk_line_start _ _ _ _ _ _ Hm). unfold lqk_flush. simpl.
    destruct cur; simpl; rewrite !length_app; simpl; lia.
  - destruct cur as [c|].
    + rewrite lqk_line_inside by done. unfold lqk_flush. simpl.
      rewrite !length_app. simpl. lia.
    + rewrite lqk_line_outside by done. lia.
Qed.

(** X11.  On a report that opens and decodes, the report-format extractor
    prints nothing and returns as many records as the report has start
    lines.  When opening or decoding the report raises, the extractor
    catches nothing: the exception escapes, and no record is returned. *)
Theorem parse_lqk_file_count (input_file : string) :
  (∀ lines, ∃ cars,
     parse_lqk_file input_file (Some (Ok lines)) = IO [] (Ok cars)
     ∧ length cars = length (filter starts lines))
  ∧ (∀ e, parse_lqk_file input_file (Some (Raise e)) = IO [] (Raise e)).
Proof.
  split; [|done]. intros lines. eexists. split; [reflexivity|].
  assert (∀ st, length (lqk_flush (foldl lqk_line st lines))
                = length (lqk_flush st) + length (filter starts lines)) as H.
  { induction lines as [|raw lines IH]; intros st.
    - simpl. lia.
    - rewrite foldl_cons, IH, lqk_flush_step, filter_cons.
      destruct (decide (starts raw)); simpl; lia. }
  by rewrite H.
Qed.

(** X12.  A line that matches none of the three patterns changes nothing,
    wherever it stands in the report. *)
Theorem parse_lqk_file_ignores_other_lines (input_file : string)
    (before after : list string) (raw : string) :
  car_match (strip raw) = None →
  section_match (strip raw) = None →
  date_match (strip raw) = None →
  parse_lqk_file input_file (Some (Ok (before ++ raw :: after)))
  = parse_lqk_file input_file (Some (Ok (before ++ after))).
Proof.
  intros Hcar Hsection Hdate. rewrite !parse_lqk_file_lines.
  rewrite !foldl_app, foldl_cons.
  assert (∀ st, lqk_line st raw = st) as ->; [|done].
  intros [cars cur]. unfold lqk_line. rewrite Hcar, Hsection, Hdate.
  by destruct cur.
Qed.

Lemma parse_lqk_file_ignores_other_lines_witness :
  parse_lqk_file "LQK.txt"
    (Some (Ok (take 6 report ++ "Stock #: 1234" :: drop 7 report)))
  = parse_lqk_file "LQK.txt" (Some (Ok (take 6 report ++ drop 7 report))).
Proof.
  apply parse_lqk_file_ignores_other_lines; vm_compute; reflexivity.
Defined.

Lemma match_here_Rep cls lo hi greedy capture rest s groups :
  match_here (Rep cls lo hi greedy capture :: rest) s = Some groups →
  ∃ n groups', match_here rest (str_drop n s) = Some groups'
    ∧ groups = (if capture then str_take n s :: groups' else groups')
    ∧ lo ≤ n ≤ run_length cls s.
Proof.
  simpl. intros (n & Hn & Hg)%first_some_Some.
  apply elem_of_counts in Hn as [Hn _].
  destruct (match_here rest (str_drop n s)) as [groups'|] eqn:Hrest; [|done].
  injection Hg as <-. by exists n, groups'.
Qed.

Lemma car_match_make line year make model :
  car_match line = Some (year, make, model) →
  make ≠ EmptyString ∧ blank_free make.
Proof.
  unfold car_match, re_match, car_pattern, plus, group_plus.
  destruct (match_here _ line) as [groups|] eqn:Hm; [|done].
  apply match_here_Rep in Hm as (n1 & g1 & Hm & -> & _).
  apply match_here_Rep in Hm as (n2 & g2 & Hm & -> & _).
  apply match_here_Rep in Hm as (n3 & g3 & Hm & -> & [Hlo Hrun]).
  simpl. destruct g3 as [|g [|g' g3]]; try done. intros [= _ <- _].
  destruct (str_take_run not_blank n3 _ Hrun) as [Hlen Hall].
  split; [|done]. intros Heq. rewrite Heq in Hlen. simpl in Hlen. lia.
Qed.

Lemma parse_lqk_file_invariant (P : car → Prop) input_file file cars :
  (∀ line year make model,
     car_match line = Some (year, make, model) →
     P (Car.mk year make (strip model) EmptyString EmptyString)) →
  (∀ c line, P c → P (update_car c line)) →
  res (parse_lqk_file input_file file) = Ok cars →
  Forall P cars.
Proof.
  intros Hnew Hupd.
  destruct file as [[lines|e]|]; simpl; [|done|by intros [= <-]].
  intros [= <-].
  assert (∀ st, Forall P (lqk_flush st) →
            Forall P (lqk_flush (foldl lqk_line st lines))) as H.
  2:{ apply H. constructor. }
  induction lines as [|raw lines IH]; intros st Hst; [done|].
  rewrite foldl_cons. apply IH. destruct st as [cars cur].
  destruct (car_match (strip raw)) as [[[year make] model]|] eqn:Hm.
  - rewrite (lqk_line_start _ _ _ _ _ _ Hm). unfold lqk_flush in *. simpl in *.
    apply Forall_app. split; [by destruct cur; rewrite ?app_nil_r|].
    apply Forall_singleton. by eapply Hupd, Hnew.
  - assert (¬ starts raw) as Hs. { unfold starts. rewrite Hm. by intros [? [=]]. }
    destruct cur as [c|].
    + rewrite lqk_line_inside by done. unfold lqk_flush in *. simpl in *.
      apply Forall_app in Hst as [Hcars Hc]. rewrite Forall_singleton in Hc.
      apply Forall_app. split; [done|]. apply Forall_singleton. by apply Hupd.
    + by rewrite lqk_line_outside by done.
Qed.

(** X13.  Every record of the report-format extractor has a make that is
    not empty and has no space in it. *)
Theorem parse_lqk_file_makes (input_file : string)
    (file : option (result (list string))) (cars : list car) :
  res (parse_lqk_file input_file file) = Ok cars →
  Forall (λ c, Car.make c ≠ EmptyString ∧ blank_free (Car.make c)) cars.
Proof.
  apply parse_lqk_file_invariant.
  - intros line year make model Hm. simpl. by eapply car_match_make.
  - intros c line Hc. by destruct (update_car_key c line) as (_ & -> & _).
Qed.

Lemma parse_lqk_file_makes_witness :
  Forall (λ c, Car.make c ≠ EmptyString ∧ blank_free (Car.make c))
    [camry_old; camry_new; truck].
Proof.
  apply (parse_lqk_file_makes "LQK.txt" (Some (Ok report))).
  vm_compute. reflexivity.
Defined.

(** ** The consolidated listing *)

(** *** The order on strings and on pairs of strings *)

Lemma str_ltb_irrefl (a : string) : String.ltb a a = false.
Proof.
  unfold String.ltb. pose proof (String.compare_antisym a a) as H.
  by destruct (String.compare a a).
Qed.

Lemma str_ltb_asym (a b : string) : String.ltb a b = true → String.ltb b a = false.
Proof.
  unfold String.ltb. rewrite (String.compare_antisym a b).
  by destruct (String.compare b a).
Qed.

Lemma str_ltb_total (a b : string) :
  String.ltb a b = true ∨ a = b ∨ String.ltb b a = true.
Proof.
  unfold String.ltb. rewrite (String.compare_antisym a b).
  destruct (String.compare b a) eqn:Hc; simpl; auto.
  apply String.compare_eq_iff in Hc. auto.
Qed.

Lemma str_ltb_trans (a b c : string) :
  String.ltb a b = true → String.ltb b c = true → String.ltb a c = true.
Proof.
  intros Hab Hbc.
  assert (String.le a c) as Hle.
  { transitivity b; unfold String.le, String.leb, String.ltb in *.
    - by destruct (String.compare a b).
    - by destruct (String.compare b c). }
  destruct (str_ltb_total a c) as [H|[->|H]]; [done|..].
  - apply str_ltb_asym in Hab. congruence.
  - unfold String.le, String.leb, String.ltb in *.
    rewrite (String.compare_antisym a c) in Hle.
    by destruct (String.compare c a).
Qed.

Lemma pair_ltb_spec (a b : string * string) :
  pair_ltb a b = true
  ↔ String.ltb a.1 b.1 = true ∨ (a.1 = b.1 ∧ String.ltb a.2 b.2 = true).
Proof.
  unfold pair_ltb. rewrite orb_true_iff, andb_true_iff, String.eqb_eq. done.
Qed.

Lemma pair_ltb_asym (a b : string * string) :
  pair_ltb a b = true → pair_ltb b a = false.
Proof.
  intros Hab. apply not_true_iff_false. intros Hba.
  apply pair_ltb_spec in Hab as [Hab|[Heq Hab]];
    apply pair_ltb_spec in Hba as [Hba|[Heq' Hba]].
  - apply str_ltb_asym in Hab. congruence.
  - rewrite Heq', str_ltb_irrefl in Hab. done.
  - rewrite Heq, str_ltb_irrefl in Hba. done.
  - apply str_ltb_asym in Hab. congruence.
Qed.

Lemma pair_ltb_total (a b : string * string) :
  pair_ltb a b = true ∨ a = b ∨ pair_ltb b a = true.
Proof.
  destruct a as [a1 a2], b as [b1 b2]. rewrite !pair_ltb_spec. simpl.
  destruct (str_ltb_total a1 b1) as [H|[->|H]]; [by auto| |by auto].
  destruct (str_ltb_total a2 b2) as [H|[->|H]]; by auto.
Qed.

Lemma pair_ltb_trans (a b c : string * string) :
  pair_ltb a b = true → pair_ltb b c = true → pair_ltb a c = true.
Proof.
  rewrite !pair_ltb_spec. intros [Hab|[Heq Hab]] [Hbc|[Heq' Hbc]].
  - left. by eapply str_ltb_trans.
  - left. by rewrite <-Heq'.
  - left. by rewrite Heq.
  - right. split; [congruence | by eapply str_ltb_trans].
Qed.

(** [a] is not above [b], [b] not above [c]: [a] is not above [c]. *)
Lemma pair_ltb_not_above (a b c : string * string) :
  pair_ltb b a = false → pair_ltb c b = false → pair_ltb c a = false.
Proof.
  intros Hba Hcb. apply not_true_iff_false. intros Hca.
  destruct (pair_ltb_total a b) as [Hab|[->|Hab]]; [|congruence..].
  destruct (pair_ltb_total b c) as [Hbc|[->|Hbc]]; [|congruence..].
  pose proof (pair_ltb_trans _ _ _ Hab Hbc) as Hac.
  apply pair_ltb_asym in Hac. congruence.
Qed.

Section sort_ascending.
Context {A : Type}.
Implicit Types (x : string * string * A) (l : list (string * string * A)).

Lemma insert_ascending_sorted x l :
  StronglySorted (λ a b, pair_ltb b.1 a.1 = false) l →
  StronglySorted (λ a b, pair_ltb b.1 a.1 = false)
    (insert_stable pair_ltb false x l).
Proof.
  induction 1 as [|y l Hl IH Hy]; simpl.
  - repeat constructor.
  - destruct (pair_ltb y.1 x.1) eqn:Hyx.
    + constructor; [done|]. rewrite insert_stable_perm.
      constructor; [by apply pair_ltb_asym | done].
    + constructor; [by constructor|]. constructor; [done|].
      eapply Forall_impl; [exact Hy|]. simpl. intros z Hz.
      by eapply pair_ltb_not_above.
Qed.

Lemma sort_ascending_sorted l :
  StronglySorted (λ a b, pair_ltb b.1 a.1 = false) (sort_stable pair_ltb false l).
Proof.
  induction l as [|x l IH]; simpl; [constructor|].
  by apply insert_ascending_sorted.
Qed.

Lemma sorted_by_ascending (key : A → string * string) (l : list A) :
  StronglySorted (λ a b, pair_ltb (key b) (key a) = false)
    (sorted_by pair_ltb l key false).
Proof.
  unfold sorted_by.
  assert (Forall (λ p, p.1 = key p.2)
            (sort_stable pair_ltb false ((λ a : A, (key a, a)) <$> l))) as Hkeys.
  { rewrite sort_stable_perm. apply Forall_fmap, Forall_forall. by intros. }
  pose proof (sort_ascending_sorted ((λ a : A, (key a, a)) <$> l)) as Hs.
  induction Hs as [|p s Hs IH Hp]; csimpl; [constructor|].
  apply Forall_cons in Hkeys as [Kp Ks]. constructor; [by apply IH|].
  apply Forall_fmap, Forall_forall. intros q Hq. simpl.
  rewrite <-Kp, <-(proj1 (Forall_forall _ _) Ks q Hq).
  by apply (proj1 (Forall_forall _ _) Hp).
Qed.
End sort_ascending.

Lemma consolidate_keys (data : list car) :
  entry_key <$> consolidate data ≡ₚ distinct (sighting_key <$> data).
Proof.
  rewrite consolidate_perm, <-!list_fmap_compose.
  rewrite (list_fmap_ext _ id); [by rewrite list_fmap_id|].
  by intros i [name year] _.
Qed.

(** X14.  The consolidated listing is in strictly ascending order of
    (car, year), both compared as text, and its keys are the distinct keys
    of the input: one entry per key, none twice. *)
Theorem consolidate_ascending (data : list car) :
  StronglySorted (λ a b, pair_ltb (entry_key a) (entry_key b) = true)
    (consolidate data)
  ∧ entry_key <$> consolidate data ≡ₚ distinct (sighting_key <$> data).
Proof.
  split; [|apply consolidate_keys].
  assert (NoDup (entry_key <$> consolidate data)) as Hnd.
  { rewrite consolidate_keys. apply NoDup_distinct. }
  assert (StronglySorted (λ a b, pair_ltb (entry_key b) (entry_key a) = false)
            (consolidate data)) as Hs.
  { unfold consolidate. apply sorted_by_ascending. }
  induction Hs as [|e l Hs IH He]; [constructor|]. csimpl in Hnd.
  apply NoDup_cons in Hnd as [Hnew Hnd]. constructor; [by apply IH|].
  apply Forall_forall. intros e' He'.
  destruct (pair_ltb_total (entry_key e) (entry_key e')) as [H|[Heq|H]]; [done|..].
  - destruct Hnew. rewrite Heq. by apply list_elem_of_fmap_2.
  - rewrite (proj1 (Forall_forall _ _) He e' He') in H. done.
Qed.

(** *** Records that are alone under their key *)

Lemma blank_free_cut (a1 b1 a2 b2 : string) :
  blank_free a1 → blank_free a2 →
  a1 +:+ " " +:+ b1 = a2 +:+ " " +:+ b2 → a1 = a2 ∧ b1 = b2.
Proof.
  unfold blank_free. revert a2.
  induction a1 as [|c1 a1 IH]; intros [|c2 a2]; simpl.
  - intros _ _ Heq. change (String " " b1 = String " " b2) in Heq.
    by injection Heq as ->.
  - intros _ [Hc _]%andb_true_iff Heq.
    change (String " " b1 = String c2 (a2 +:+ " " +:+ b2)) in Heq.
    injection Heq as <- _. done.
  - intros [Hc _]%andb_true_iff _ Heq.
    change (String c1 (a1 +:+ " " +:+ b1) = String " " b2) in Heq.
    injection Heq as -> _. done.
  - intros [_ H1]%andb_true_iff [_ H2]%andb_true_iff Heq.
    change (String c1 (a1 +:+ " " +:+ b1) = String c2 (a2 +:+ " " +:+ b2)) in Heq.
    injection Heq as -> Heq.
    by destruct (IH a2 H1 H2 Heq) as [-> ->].
Qed.

Lemma sighting_key_car_key (c1 c2 : car) :
  blank_free (Car.make c1) → blank_free (Car.make c2) →
  sighting_key c1 = sighting_key c2 → car_key c1 = car_key c2.
Proof.
  unfold sighting_key, car_key. intros H1 H2 [= Hname ->].
  by destruct (blank_free_cut _ _ _ _ H1 H2 Hname) as [-> ->].
Qed.

Lemma NoDup_fmap_on {A K1 K2} (f : A → K1) (g : A → K2) (l : list A) :
  (∀ x y, x ∈ l → y ∈ l → g x = g y → f x = f y) →
  NoDup (f <$> l) → NoDup (g <$> l).
Proof.
  induction l as [|a l IH]; csimpl; [constructor|].
  intros Hfg [Ha Hl]%NoDup_cons. apply NoDup_cons. split.
  - intros (y & Hy & Hin)%list_elem_of_fmap. apply Ha.
    rewrite (Hfg a y); [by apply list_elem_of_fmap_2 | left | by right | done].
  - apply IH; [|done]. intros x y Hx Hy. apply Hfg; by right.
Qed.

Lemma consolidate_singletons (data : list car) :
  NoDup (sighting_key <$> data) → consolidate data ≡ₚ single_entry <$> data.
Proof.
  intros Hnd. rewrite consolidate_perm, distinct_NoDup by done.
  rewrite <-!list_fmap_compose.
  assert (∀ x y : list Entry.t, x = y → x ≡ₚ y) as Heq by by intros ?? ->.
  apply Heq, list_fmap_ext. intros i c Hc. simpl.
  apply list_elem_of_lookup_2 in Hc.
  unfold sightings. rewrite (filter_unique sighting_key data c Hnd Hc).
  unfold single_entry. csimpl. by rewrite !unique_values_distinct.
Qed.

Lemma convert_to_site_format_distinct (cars cars_sorted : list car) :
  res (convert_to_site_format cars) = Ok cars_sorted →
  NoDup (car_key <$> cars_sorted) ∧ ∀ c, c ∈ cars_sorted → c ∈ cars.
Proof.
  rewrite convert_to_site_format_res.
  intros (unique & Hu & Hsorted)%result_bind_Ok.
  apply sorted_perm in Hsorted. split.
  - rewrite Hsorted, (remove_duplicates_keys _ _ Hu). apply NoDup_distinct.
  - intros c Hc. rewrite Hsorted in Hc. by eapply remove_duplicates_subset.
Qed.

Lemma consolidate_converted (cars cars_sorted : list car) :
  Forall (λ c, blank_free (Car.make c)) cars →
  res (convert_to_site_format cars) = Ok cars_sorted →
  consolidate cars_sorted ≡ₚ single_entry <$> cars_sorted.
Proof.
  intros Hfree [Hnd Hsub]%convert_to_site_format_distinct.
  apply consolidate_singletons.
  apply (NoDup_fmap_on car_key sighting_key); [|done].
  intros x y Hx Hy.
  apply sighting_key_car_key; apply (proj1 (Forall_forall _ _) Hfree); auto.
Qed.

(** X15.  When no make has a space in it, the consolidation of the
    converted list has one entry per record: its count is 1, and its dates
    and locations are the record's date and location under the number 1. *)
Theorem consolidate_after_conversion (cars cars_sorted : list car) :
  Forall (λ c, blank_free (Car.make c)) cars →
  res (convert_to_site_format cars) = Ok cars_sorted →
  consolidate cars_sorted ≡ₚ single_entry <$> cars_sorted
  ∧ length (consolidate cars_sorted) = length cars_sorted
  ∧ Forall (λ e, Entry.count e = "1") (consolidate cars_sorted).
Proof.
  intros Hfree Hconv.
  pose proof (consolidate_converted _ _ Hfree Hconv) as Hperm.
  split_and!; [done|..].
  - by rewrite Hperm, length_fmap.
  - rewrite Hperm. apply Forall_fmap, Forall_forall. by intros.
Qed.

Lemma consolidate_after_conversion_witness :
  consolidate [camry_new; civic_l1; truck]
  ≡ₚ single_entry <$> [camry_new; civic_l1; truck]
  ∧ length (consolidate [camry_new; civic_l1; truck]) = 3
  ∧ Forall (λ e, Entry.count e = "1") (consolidate [camry_new; civic_l1; truck]).
Proof.
  apply (consolidate_after_conversion lot).
  - repeat constructor.
  - vm_compute. reflexivity.
Defined.

(** ** A run of the entry point *)

Lemma row_to_car_make (row : gmap string cell) (c : car) :
  row_to_car row = Ok c → blank_free (Car.make c).
Proof.
  unfold row_to_car. intros Hc.
  apply result_bind_Ok in Hc as (name & _ & Hc).
  apply result_bind_Ok in Hc as (year & _ & Hc).
  apply result_bind_Ok in Hc as (location & _ & Hc).
  apply result_bind_Ok in Hc as (available & _ & [= <-]). simpl.
  by destruct (split1_blank name) as [[Hfree ->]|(a & b & -> & -> & Ha)].
Qed.

Lemma read_rows_Forall (P : car → Prop) (reader : list reader_event)
    (cars : list car) :
  (∀ row c, row_to_car row = Ok c → P c) →
  Forall P cars → Forall P (read_rows reader cars).1.
Proof.
  intros Hrow. revert cars.
  induction reader as [|[row|e] reader IH]; intros cars Hcars; simpl; [done| |done].
  destruct (row_to_car row) as [c|e] eqn:Hc; [|done].
  apply IH, Forall_app. split; [done|]. apply Forall_singleton. by eapply Hrow.
Qed.

Lemma parse_csv_file_makes (csv_file : string) (file : option (list reader_event)) :
  Forall (λ c, blank_free (Car.make c)) (returned (parse_csv_file csv_file file)).
Proof.
  unfold returned, parse_csv_file. destruct file as [reader|]; [|constructor].
  pose proof (read_rows_Forall (λ c, blank_free (Car.make c)) reader []
                row_to_car_make (Forall_nil_2 _)) as H.
  by destruct (read_rows reader []) as [cars [e|]].
Qed.

Lemma gathered_makes (w : world) :
  Forall (λ c, blank_free (Car.make c)) (gathered w).
Proof.
  unfold gathered.
  destruct (res (parse_lqk_file lqk_file (lqk_txt w))) as [cars|e] eqn:Hres;
    [|constructor].
  apply Forall_app. split.
  - eapply parse_lqk_file_invariant; [| |exact Hres].
    + intros line year make model Hm. simpl. by eapply car_match_make.
    + intros c line Hc. by destruct (update_car_key c line) as (_ & -> & _).
  - unfold csv_files. csimpl. rewrite app_nil_r.
    apply Forall_app. split; apply parse_csv_file_makes.
Qed.

(** *** What a run returns *)

Lemma ok_bind {A B} (a : A) (f : A → result B) : Ok a ≫= f = f a.
Proof. done. Qed.

Lemma res_print {A} (m : message) (rest : io A) :
  res (print m;; rest) = res rest.
Proof. by rewrite res_bind. Qed.




Lemma main_res (w : world) :
  res (main w)
  = res (parse_lqk_file lqk_file (lqk_txt w)) ≫= λ _,
    match gathered w with
    | [] => Ok 1%Z
    | _ =>
        cars_final ← res (convert_to_site_format (gathered w));
        res (show_summary cars_final);;
        res (save_to_json cars_final site_json (write_error w site_json));;
        res (save_to_lqk_consolidated cars_final lqk_json
               (write_error w lqk_json));;
        res (ask_server (stdin w));;
        Ok 0%Z
    end.
Proof.
  unfold main. rewrite !res_print, res_bind.
  destruct (res (parse_lqk_file lqk_file (lqk_txt w))) as [cars_txt|e] eqn:Htxt;
    [|done].
  rewrite !ok_bind, res_bind.
  assert (res match cars_txt with
              | [] => mret []
              | _ :: _ => print (MFound (length cars_txt) lqk_file);;
                          mret ([] ++ cars_txt)
              end = Ok cars_txt) as -> by by destruct cars_txt.
  rewrite ok_bind, res_print, res_bind, for_each_read_csv_res, ok_bind.
  rewrite <-(gathered_read _ _ Htxt).
  destruct (gathered w) as [|c0 all_cars]; [done|].
  rewrite !res_print, res_bind.
  destruct (res (convert_to_site_format (c0 :: all_cars))) as [cars_final|e];
    [|done].
  rewrite !ok_bind, res_print, res_bind.
  destruct (res (show_summary cars_final)) as [[]|e]; [|done].
  rewrite !ok_bind, res_print, res_bind.
  destruct (res (save_to_json cars_final site_json (write_error w site_json)))
    as [[]|e]; [|done].
  rewrite !ok_bind, res_print, res_bind.
  destruct (res (save_to_lqk_consolidated cars_final lqk_json
                   (write_error w lqk_json))) as [[]|e]; [|done].
  rewrite !ok_bind, !res_print, res_bind.
  by destruct (res (ask_server (stdin w))).
Qed.

Lemma convert_to_site_format_rankable (cars cars_sorted : list car) :
  res (convert_to_site_format cars) = Ok cars_sorted →
  Forall (λ c, is_Ok (date_key c)) cars_sorted.
Proof.
  rewrite convert_to_site_format_res.
  intros (unique & _ & Hsorted)%result_bind_Ok.
  rewrite (sorted_perm _ _ _ _ _ Hsorted).
  apply (sorted_is_Ok rank_ltb date_key unique true). by eexists.
Qed.


Lemma gathered_is_read (w : world) :
  gathered w ≠ [] → is_Ok (res (parse_lqk_file lqk_file (lqk_txt w))).
Proof.
  intros Hdata.
  destruct (res (parse_lqk_file lqk_file (lqk_txt w))) as [cars|e] eqn:Htxt;
    [by eexists|].
  by rewrite (gathered_unread _ _ Htxt) in Hdata.
Qed.



(** *** What a run prints and writes *)

Lemma prints_only_bind {A B} (m : io A) (f : A → io B) :
  prints_only (out m) →
  (∀ a, res m = Ok a → prints_only (out (f a))) →
  prints_only (out (m ≫= f)).
Proof.
  intros Hm Hf. unfold mbind, io_bind.
  destruct (res m) as [a|e] eqn:Hres; simpl; [|done].
  apply Forall_app. split; [done | by apply Hf].
Qed.

Lemma prints_only_print (m : message) : prints_only (out (print m)).
Proof. apply Forall_singleton. by eexists. Qed.

Lemma read_csv_prints (w : world) (all_cars : list car) (csv_file : string) :
  prints_only (out (read_csv w all_cars csv_file)).
Proof.
  unfold read_csv. destruct (csv w csv_file) as [reader|]; [|constructor].
  apply prints_only_bind; [apply parse_csv_file_prints|].
  intros [|c cars] _; [constructor|].
  apply prints_only_bind; [apply prints_only_print|]. intros _ _. constructor.
Qed.

Lemma for_each_read_csv_prints (w : world) (files : list string)
    (all_cars : list car) :
  prints_only (out (for_each (read_csv w) files all_cars)).
Proof.
  revert all_cars. induction files as [|f files IH]; intros all_cars;
    [constructor|].
  simpl. apply prints_only_bind; [apply read_csv_prints|]. intros a _. apply IH.
Qed.

Lemma convert_to_site_format_prints (cars : list car) :
  prints_only (out (convert_to_site_format cars)).
Proof.
  unfold convert_to_site_format, remove_duplicates.
  apply prints_only_bind; [|intros a _; constructor].
  apply prints_only_bind; [constructor|]. intros [unique removed] _.
  apply prints_only_bind; [apply prints_only_print|]. intros _ _. constructor.
Qed.

Lemma prints_only_print_all (ms : list message) :
  prints_only (out (print_all ms)).
Proof.
  unfold print_all, prints_only. simpl.
  apply Forall_fmap, Forall_true. intros m. by exists m.
Qed.

Lemma show_summary_prints (cars_final : list car) :
  prints_only (out (show_summary cars_final)).
Proof.
  unfold show_summary. destruct cars_final as [|c cars]; [constructor|].
  apply prints_only_bind.
  { destruct (filter _ _); [constructor|].
    apply prints_only_bind; [constructor|]. intros ds _.
    apply prints_only_print. }
  intros _ _. apply prints_only_bind; [apply prints_only_print|]. intros _ _.
  apply prints_only_print_all.
Qed.

Lemma ask_server_prints (typed : answer) :
  prints_only (out (ask_server typed)).
Proof.
  unfold ask_server. apply prints_only_bind; [apply prints_only_print|].
  intros _ _. destruct typed as [s| |].
  - case_decide; [|apply prints_only_print].
    apply prints_only_bind; [constructor|]. intros _ _. constructor.
  - apply prints_only_print.
  - constructor.
Qed.

(** Up to the saving of the listings a run only prints; it gets there when
    it has gathered a record and the conversion returns. *)
Lemma main_prints_before_saving (w : world) :
  ¬ (gathered w ≠ [] ∧ is_Ok (res (convert_to_site_format (gathered w)))) →
  prints_only (out (main w)).
Proof.
  intros Hstop. unfold main.
  apply prints_only_bind; [apply prints_only_print | intros _ _].
  apply prints_only_bind; [apply prints_only_print | intros _ _].
  apply prints_only_bind; [apply parse_lqk_file_prints | intros cars_txt Htxt].
  apply prints_only_bind.
  { destruct cars_txt; [constructor|].
    apply prints_only_bind; [apply prints_only_print | intros _ _; constructor]. }
  intros all_cars Hall.
  assert (all_cars = cars_txt) as -> by (destruct cars_txt; by injection Hall).
  apply prints_only_bind; [apply prints_only_print | intros _ _].
  apply prints_only_bind; [apply for_each_read_csv_prints | intros all_cars Hcsv].
  assert (Ok all_cars = Ok (gathered w)) as [= ->].
  { by rewrite <-Hcsv, for_each_read_csv_res, (gathered_read _ _ Htxt). }
  destruct (gathered w) as [|c0 all_cars] eqn:Hdata.
  { apply prints_only_bind; [apply prints_only_print | intros _ _; constructor]. }
  apply prints_only_bind; [apply prints_only_print | intros _ _].
  apply prints_only_bind; [apply prints_only_print | intros _ _].
  apply prints_only_bind; [apply convert_to_site_format_prints|].
  intros cars_final Hfinal. destruct Hstop. split; [done | by eexists].
Qed.

Lemma io_bind_Ok {A B} (m : io A) (f : A → io B) (a : A) :
  res m = Ok a → m ≫= f = IO (out m ++ out (f a)) (res (f a)).
Proof. intros Hm. unfold mbind, io_bind. by rewrite Hm. Qed.

Lemma prints_then_bind {A B} (m : io A) (f : A → io B) (a : A)
    (events : list event) (outcome : result B) :
  res m = Ok a →
  prints_only (out m) →
  (∃ before, prints_only before ∧ f a = IO (before ++ events) outcome) →
  ∃ before, prints_only before ∧ m ≫= f = IO (before ++ events) outcome.
Proof.
  intros Hm Hprints (before & Hbefore & Hf). exists (out m ++ before).
  split; [by apply Forall_app|].
  rewrite (io_bind_Ok _ _ _ Hm), Hf. simpl. by rewrite app_assoc.
Qed.

(** A run that has gathered a record and converted the gathering prints,
    then saves, then asks: the lines 331-353 with everything before them
    reduced to what was printed. *)
Lemma main_with_data (w : world) (cars_final : list car) :
  gathered w ≠ [] →
  res (convert_to_site_format (gathered w)) = Ok cars_final →
  ∃ before, prints_only before
    ∧ main w
      = match write_error w site_json, write_error w lqk_json with
        | Some e, _ => IO (before ++ []) (Raise e)
        | None, Some e =>
            IO (before
                ++ [WriteCars site_json cars_final;
                    Print (MSaved (length cars_final) site_json)])
               (Raise e)
        | None, None =>
            IO (before
                ++ [WriteCars site_json cars_final;
                    Print (MSaved (length cars_final) site_json);
                    WriteConsolidated lqk_json (consolidate cars_final);
                    Print (MSaved (length cars_final) lqk_json);
                    Print MSuccess]
                   ++ out (ask_server (stdin w)))
               (res (ask_server (stdin w)) ≫= λ _, Ok 0%Z)
        end.
Proof.
  intros Hdata Hconv.
  destruct (gathered_is_read w Hdata) as [cars_txt Htxt].
  assert (∃ events outcome,
            match write_error w site_json, write_error w lqk_json with
            | Some e, _ => events = [] ∧ outcome = Raise e
            | None, Some e =>
                events = [WriteCars site_json cars_final;
                          Print (MSaved (length cars_final) site_json)]
                ∧ outcome = Raise e
            | None, None =>
                events = [WriteCars site_json cars_final;
                          Print (MSaved (length cars_final) site_json);
                          WriteConsolidated lqk_json (consolidate cars_final);
                          Print (MSaved (length cars_final) lqk_json);
                          Print MSuccess]
                         ++ out (ask_server (stdin w))
                ∧ outcome = res (ask_server (stdin w)) ≫= λ _, Ok 0%Z
            end
            ∧ ∃ before, prints_only before
                ∧ main w = IO (before ++ events) outcome)
    as (events & outcome & Hcase & before & Hbefore & Hmain).
  2:{ exists before. split; [done|]. rewrite Hmain.
      destruct (write_error w site_json), (write_error w lqk_json);
        by destruct Hcase as [-> ->]. }
  do 2 eexists. split; [|unfold main].
  2:{ eapply prints_then_bind; [reflexivity | apply prints_only_print|].
      cbn zeta.
      eapply prints_then_bind; [reflexivity | apply prints_only_print|].
      eapply prints_then_bind; [exact Htxt | apply parse_lqk_file_prints|].
      eapply (prints_then_bind _ _ cars_txt); [by destruct cars_txt| |].
      { destruct cars_txt; [constructor|].
        apply prints_only_bind; [apply prints_only_print|].
        intros _ _. constructor. }
      eapply prints_then_bind; [reflexivity | apply prints_only_print|].
      eapply prints_then_bind;
        [apply for_each_read_csv_res | apply for_each_read_csv_prints|].
      rewrite <-(gathered_read _ _ Htxt).
      destruct (gathered w) as [|c0 all_cars] eqn:Hall; [done|].
      eapply prints_then_bind; [reflexivity | apply prints_only_print|].
      eapply prints_then_bind; [reflexivity | apply prints_only_print|].
      eapply prints_then_bind;
        [exact Hconv | apply convert_to_site_format_prints|].
      eapply prints_then_bind; [reflexivity | apply prints_only_print|].
      eapply prints_then_bind;
        [apply show_summary_res; by eapply convert_to_site_format_rankable
        | apply show_summary_prints|].
      eapply prints_then_bind; [reflexivity | apply prints_only_print|].
      exists []. split; [constructor|]. rewrite app_nil_l. apply io_eta. }
  unfold save_to_json, save_to_lqk_consolidated.
  destruct (write_error w site_json) as [e|]; [split; reflexivity|].
  destruct (write_error w lqk_json) as [e|]; [split; reflexivity|].
  destruct (ask_server (stdin w)) as [asked [[]|e]];
    unfold mbind, io_bind; simpl; by rewrite ?app_nil_r.
Qed.

Lemma prints_only_no_write (events : list event) :
  prints_only events →
  (∀ f data, WriteCars f data ∉ events)
  ∧ (∀ f entries, WriteConsolidated f entries ∉ events).
Proof.
  intros Hprints. split; intros f data Hin;
    by destruct (proj1 (Forall_forall _ _) Hprints _ Hin) as [m Hm].
Qed.

(** The run gets to the saving of the listings, or it only prints. *)
Lemma main_reaches_saving (w : world) :
  (∃ cars_final,
     gathered w ≠ [] ∧ res (convert_to_site_format (gathered w)) = Ok cars_final)
  ∨ prints_only (out (main w)).
Proof.
  assert (gathered w = [] ∨ gathered w ≠ []) as [Hnone|Hdata]
    by (destruct (gathered w); auto).
  { right. apply main_prints_before_saving. by intros [? _]. }
  destruct (res (convert_to_site_format (gathered w))) as [cars_final|e] eqn:Hconv.
  - left. by exists cars_final.
  - right. apply main_prints_before_saving. rewrite Hconv.
    by intros [_ [? ?]].
Qed.

(** X16.  A run never consolidates anything.  Whenever a run writes a
    consolidated listing, it writes it to LQK.json, after the flat listing
    of the converted records; the extractors give makes without a space,
    so every converted record is alone under its key, and the consolidated
    listing has exactly one entry per record of the flat listing, each with
    count 1. *)
Theorem main_consolidated_listing (w : world) (f : string)
    (entries : list Entry.t) :
  WriteConsolidated f entries ∈ out (main w) →
  f = lqk_json
  ∧ ∃ cars_final,
      res (convert_to_site_format (gathered w)) = Ok cars_final
      ∧ WriteCars site_json cars_final ∈ out (main w)
      ∧ entries ≡ₚ single_entry <$> cars_final
      ∧ Forall (λ e, Entry.count e = "1") entries.
Proof.
  intros Hin.
  destruct (main_reaches_saving w) as [(cars_final & Hdata & Hconv)|Hprints].
  2:{ by apply prints_only_no_write in Hprints as [_ Hno]; apply Hno in Hin. }
  destruct (main_with_data w cars_final Hdata Hconv) as (before & Hbefore & Hmain).
  pose proof (proj2 (prints_only_no_write _ Hbefore)) as Hno.
  pose proof (proj2 (prints_only_no_write _ (ask_server_prints (stdin w))))
    as Hno'.
  rewrite Hmain in Hin |- *.
  destruct (write_error w site_json) as [e|].
  { simpl in Hin. rewrite app_nil_r in Hin. by apply Hno in Hin. }
  destruct (write_error w lqk_json) as [e|]; simpl in Hin.
  { apply elem_of_app in Hin as [Hin|Hin]; [by apply Hno in Hin|].
    by repeat (apply elem_of_cons in Hin as [?|Hin]; [done|]);
      apply elem_of_nil in Hin. }
  apply elem_of_app in Hin as [Hin|Hin]; [by apply Hno in Hin|].
  do 2 (apply elem_of_cons in Hin as [?|Hin]; [done|]).
  apply elem_of_cons in Hin as [[= -> ->]|Hin].
  2:{ do 2 (apply elem_of_cons in Hin as [?|Hin]; [done|]).
      by apply Hno' in Hin. }
  split; [done|]. exists cars_final.
  pose proof (consolidate_converted _ _ (gathered_makes w) Hconv) as Hperm.
  split_and!; [done| |done|].
  - simpl. apply elem_of_app. right. left.
  - rewrite Hperm. apply Forall_fmap, Forall_true. by intros.
Qed.

Lemma main_consolidated_listing_witness :
  lqk_json = lqk_json
  ∧ ∃ cars_final,
      res (convert_to_site_format (gathered stocked_world)) = Ok cars_final
      ∧ WriteCars site_json cars_final ∈ out (main stocked_world)
      ∧ consolidate [camry_new; civic_l1; truck] ≡ₚ single_entry <$> cars_final
      ∧ Forall (λ e, Entry.count e = "1")
          (consolidate [camry_new; civic_l1; truck]).
Proof.
  apply (main_consolidated_listing stocked_world).
  apply (list_elem_of_lookup_2 _ 17). vm_compute. reflexivity.
Defined.







(** X21.  A report that exists but cannot be opened or decoded ends the run
    with the exception of the extractor, whatever the tabular files hold:
    the exit status is 1 and nothing is written. *)
Theorem main_unreadable_report (w : world) (e : exn) :
  lqk_txt w = Some (Raise e) →
  res (main w) = Raise e
  ∧ exit_status (main w) = 1%Z
  ∧ prints_only (out (main w)).
Proof.
  intros Hfile.
  assert (res (parse_lqk_file lqk_file (lqk_txt w)) = Raise e) as Htxt
    by by rewrite Hfile.
  assert (res (main w) = Raise e) as Hres by by rewrite main_res, Htxt.
  split_and!; [done | unfold exit_status; by rewrite Hres |].
  apply main_prints_before_saving. rewrite (gathered_unread _ _ Htxt).
  by intros [? _].
Qed.

Lemma main_unreadable_report_witness :
  res (main garbled_world) = Raise UnicodeDecodeError
  ∧ exit_status (main garbled_world) = 1%Z
  ∧ prints_only (out (main garbled_world)).
Proof. by apply (main_unreadable_report garbled_world). Defined.
